(** * SwimmigStar: the player-state and narrative-branch engine

    A shallow embedding of [swimming_star_game.py].  The Python program
    mutates one [GameState] record, prints to the terminal, reads whole
    lines from standard input and stops through exceptions ([SystemExit],
    [ValueError], ...).  Here a procedure is a function from the current
    state to an [Outcome]: either it returns a value with the new state, or
    it raises, and the state reached at the moment of the raise is kept. *)

From Stdlib Require Import ZArith Ascii String List Lia.
From stdpp Require Import base gmap strings list pretty.

Open Scope string_scope.
Open Scope Z_scope.

(** ** Exceptions and outcomes *)

(** The exceptions the script can let escape. [LoopBudget] is not a Python
    exception: it marks the exhaustion of the iteration budget of the
    skill-tree loop below, and is proved unreachable. *)
Inductive Stop : Type :=
  | ValueError (msg : string)
  | KeyError (key : string)
  | IndexError
  | EOFError
  | SystemExit
  | LoopBudget.

Inductive Outcome (S A : Type) : Type :=
  | Done (a : A) (s : S)
  | Halt (e : Stop) (s : S).

Arguments Done {S A} a s.
Arguments Halt {S A} e s.

(** The state in which a procedure stopped, whether it returned or raised. *)
Definition final {S A} (o : Outcome S A) : S :=
  match o with
  | Done _ s => s
  | Halt _ s => s
  end.

Definition raised {S A} (o : Outcome S A) : option Stop :=
  match o with
  | Done _ _ => None
  | Halt e _ => Some e
  end.

(** Procedures over a mutable object of type [S]. *)
Definition ST (S A : Type) : Type := S -> Outcome S A.

Definition ret {S A} (a : A) : ST S A := fun s => Done a s.

Definition bind {S A B} (m : ST S A) (k : A -> ST S B) : ST S B :=
  fun s =>
    match m s with
    | Done a s' => k a s'
    | Halt e s' => Halt e s'
    end.

Definition raise {S A} (e : Stop) : ST S A := fun s => Halt e s.

Definition gets {S A} (f : S -> A) : ST S A := fun s => Done (f s) s.

Definition modify {S} (f : S -> S) : ST S unit := fun s => Done tt (f s).

Declare Scope proc_scope.
Delimit Scope proc_scope with proc.
Notation "'let*' x ':=' m 'in' k" := (bind m (fun x => k))
  (at level 10, x name, m at level 100, k at level 200) : proc_scope.
Notation "m '>>' k" := (bind m (fun _ => k))
  (at level 90, right associativity) : proc_scope.
Open Scope proc_scope.

(** ** EnergyPool *)

Record EnergyPool : Type := mkEnergyPool { current : Z; maximum : Z }.

Definition set_current (c : Z) (p : EnergyPool) : EnergyPool :=
  {| current := c; maximum := maximum p |}.

Definition can_spend (amount : Z) (p : EnergyPool) : bool :=
  current p >=? amount.

Definition spend (amount : Z) : ST EnergyPool bool :=
  if amount <? 0 then raise (ValueError "Le coût doit être positif.")
  else
    let* ok := gets (can_spend amount) in
    if negb ok then
      modify (set_current 0) >> ret false
    else
      modify (fun p => set_current (current p - amount) p) >> ret true.

Definition restore (amount : Z) : ST EnergyPool unit :=
  if amount <? 0 then raise (ValueError "La restauration doit être positive.")
  else modify (fun p => set_current (Z.min (maximum p) (current p + amount)) p).

Definition is_depleted (p : EnergyPool) : bool :=
  current p <=? 0.

(** ** GameState *)

Record GameState : Type := mkGameState {
  energy : EnergyPool;
  skills : list string;
  allies : list string;
  negative_influence : Z;
  entity_presence : Z;
  entity_trust : Z;
  rest_count : Z
}.

Definition set_energy (p : EnergyPool) (s : GameState) : GameState :=
  mkGameState p (skills s) (allies s) (negative_influence s)
    (entity_presence s) (entity_trust s) (rest_count s).

Definition set_skills (l : list string) (s : GameState) : GameState :=
  mkGameState (energy s) l (allies s) (negative_influence s)
    (entity_presence s) (entity_trust s) (rest_count s).

Definition set_allies (l : list string) (s : GameState) : GameState :=
  mkGameState (energy s) (skills s) l (negative_influence s)
    (entity_presence s) (entity_trust s) (rest_count s).

Definition set_negative_influence (n : Z) (s : GameState) : GameState :=
  mkGameState (energy s) (skills s) (allies s) n
    (entity_presence s) (entity_trust s) (rest_count s).

Definition set_entity_presence (n : Z) (s : GameState) : GameState :=
  mkGameState (energy s) (skills s) (allies s) (negative_influence s)
    n (entity_trust s) (rest_count s).

Definition set_entity_trust (n : Z) (s : GameState) : GameState :=
  mkGameState (energy s) (skills s) (allies s) (negative_influence s)
    (entity_presence s) n (rest_count s).

Definition set_rest_count (n : Z) (s : GameState) : GameState :=
  mkGameState (energy s) (skills s) (allies s) (negative_influence s)
    (entity_presence s) (entity_trust s) n.

(** [GameState(energy=EnergyPool(current=10, maximum=12))] with the
    dataclass defaults. *)
Definition initial_state : GameState :=
  mkGameState (mkEnergyPool 10 12) [] [] 0 3 0 0.

(** ** The terminal *)

(** What the script writes, one entry per call: [print_wrapped(msg)]
    (whose line folding by [textwrap] is left to the terminal), a bare
    [print(line)], and the prompt text of [input(prompt)]. *)
Inductive Output : Type :=
  | Wrapped (msg : string)
  | Line (text : string)
  | Prompt (text : string).

(** The game state together with the lines still to be read on standard
    input (none left means end of input) and everything written so far,
    oldest first. *)
Record World : Type := mkWorld {
  state : GameState;
  stdin : list string;
  stdout : list Output
}.

Definition set_state (s : GameState) (w : World) : World :=
  mkWorld s (stdin w) (stdout w).

Definition set_stdin (l : list string) (w : World) : World :=
  mkWorld (state w) l (stdout w).

Definition set_stdout (o : list Output) (w : World) : World :=
  mkWorld (state w) (stdin w) o.

Abbreviation M := (ST World).

Definition emit (o : Output) : M unit :=
  modify (fun w => set_stdout (stdout w ++ [o]) w).

Definition print_wrapped (message : string) : M unit := emit (Wrapped message).

Definition print (line : string) : M unit := emit (Line line).

(** Read a field of [state]. *)
Definition look {A} (f : GameState -> A) : M A := gets (fun w => f (state w)).

(** Assign fields of [state]. *)
Definition update (f : GameState -> GameState) : M unit :=
  modify (fun w => set_state (f (state w)) w).

(** Call a method of [state.energy]: the pool is mutated in place, also
    when the method raises. *)
Definition on_energy {A} (op : ST EnergyPool A) : M A :=
  fun w =>
    match op (energy (state w)) with
    | Done a p => Done a (set_state (set_energy p (state w)) w)
    | Halt e p => Halt e (set_state (set_energy p (state w)) w)
    end.

(** [input(prompt)]: writes the prompt, then returns the next line or
    raises [EOFError] at end of input. *)
Definition input (prompt : string) : M string :=
  emit (Prompt prompt) >>
  fun w =>
    match stdin w with
    | [] => Halt EOFError w
    | line :: rest => Done line (set_stdin rest w)
    end.

(** The [str] and [int] builtins the script calls on what the player
    types.  Their Unicode tables are Python's, not the script's, so the
    engine is written against this interface; [ascii_text] below runs it
    on ASCII input. [int] answers [None] where Python raises [ValueError]. *)
Class TextOps : Type := {
  strip : string -> string;
  lower : string -> string;
  isdigit : string -> bool;
  int : string -> option Z
}.

Definition farewell {A} : M A :=
  print_wrapped "SwimmigStar replie ses rayons pour un temps. À bientôt." >>
  raise SystemExit.

Definition check_energy : M unit :=
  let* depleted := look (fun s => is_depleted (energy s)) in
  if depleted then
    print "" >>
    print_wrapped ("À force d'efforts, SwimmigStar s'éteint et dérive dans le vide. "
      +:+ "L'univers attendra un autre cycle pour se réveiller.") >>
    raise SystemExit
  else ret tt.

(** Truth value of a Python [str]. *)
Definition nonempty (s : string) : bool :=
  match s with
  | EmptyString => false
  | String _ _ => true
  end.

Definition rest (reason : option string) : M unit :=
  update (fun s => set_rest_count (rest_count s + 1) s) >>
  match reason with
  | Some r => if nonempty r then print_wrapped r else ret tt
  | None => ret tt
  end >>
  print_wrapped ("SwimmigStar se laisse flotter, recueillant les fragments de chaleur qui "
    +:+ "subsistent dans le vide.") >>
  let* before := look (fun s => current (energy s)) in
  on_energy (restore 4) >>
  let* after := look (fun s => current (energy s)) in
  let gained := after - before in
  let* top := look (fun s => maximum (energy s)) in
  (if gained >? 0 then
     print_wrapped ("Elle regagne " +:+ pretty gained
       +:+ " point(s) d'énergie. Réserve actuelle : " +:+ pretty after +:+ "/"
       +:+ pretty top +:+ ".")
   else print_wrapped "Son éclat est déjà à son zénith.") >>
  update (fun s => set_entity_presence (Z.min (entity_presence s + 1) 4) s).

(** ** The choice prompt *)

(** A menu entry.  A Python handler returns nothing and reports through
    the [nonlocal] variables of the function that built it; here it
    returns their new values, of type [A]. *)
Abbreviation Choice A := (string * M A)%type.

(** [enumerate(choices, start=index)] printed one entry per line. *)
Fixpoint print_menu {A} (index : Z) (choices : list (Choice A)) : M unit :=
  match choices with
  | [] => ret tt
  | (label, _) :: more =>
      print ("  " +:+ pretty index +:+ ". " +:+ label) >>
      print_menu (index + 1) more
  end.

Definition quit_keyword (s : string) : bool :=
  bool_decide (s = "quit") || bool_decide (s = "exit").

Section Prompt.
Context {text : TextOps}.

(** One turn of the [while True] loop reads one line, so the loop is
    written by recursion on the lines left on standard input, which it
    takes off [stdin] as it goes. *)
Fixpoint prompt_choice_on {A} (question : string) (choices : list (Choice A))
    (lines : list string) : M A :=
  print_wrapped question >>
  print_menu 1 choices >>
  emit (Prompt "> ") >>
  match lines with
  | [] => farewell
  | line :: more =>
      modify (set_stdin more) >>
      let raw := strip line in
      if quit_keyword (lower raw) then farewell
      else if negb (isdigit raw) then
        print_wrapped "Entre le numéro correspondant à ton choix." >>
        prompt_choice_on question choices more
      else
        match int raw with
        | None => raise (ValueError "invalid literal for int()")
        | Some value =>
            if negb ((1 <=? value) && (value <=? Z.of_nat (length choices))) then
              print_wrapped "Choix invalide, essaie encore." >>
              prompt_choice_on question choices more
            else
              match choices !! Z.to_nat (value - 1) with
              | Some (_, handler) => handler
              | None => raise IndexError
              end
        end
  end.

Definition prompt_choice {A} (question : string) (choices : list (Choice A)) : M A :=
  fun w => prompt_choice_on question choices (stdin w) w.

End Prompt.

(** The fragment [{state.energy.current}/{state.energy.maximum}] of the
    status messages. *)
Definition gauge (s : GameState) : string :=
  pretty (current (energy s)) +:+ "/" +:+ pretty (maximum (energy s)).

(** [for x in items: body(x)] *)
Fixpoint for_each {S A} (items : list A) (body : A -> ST S unit) : ST S unit :=
  match items with
  | [] => ret tt
  | x :: more => body x >> for_each more body
  end.

(** ** The skill tree *)

(** The [skills] dictionary of [run_skill_tree], in insertion order:
    key, then (name, description, cost). *)
Definition skill_catalog : list (string * (string * string * Z)) :=
  [ ("solidarite",
      ("Éclat de Solidarité",
       "Projette un fil lumineux vers les alliées potentielles, facilitant les rencontres à venir.",
       2));
    ("lullaby",
      ("Berceuse Résonante",
       "Apaise les mondes fatigués et rappelle aux planètes hostiles qu'elles peuvent changer.",
       2));
    ("lantern",
      ("Lanternes de Guidage",
       "Trace des chemins sûrs à travers le néant pour retrouver son point d'ancrage.",
       3)) ].

Fixpoint catalog_get {V} (key : string) (items : list (string * V)) : option V :=
  match items with
  | [] => None
  | (k, v) :: more => if bool_decide (k = key) then Some v else catalog_get key more
  end.

(** [learn] closes over the set [acquired]; it takes the set and returns
    it as the call leaves it. *)
Definition learn (skill_key : string) (acquired : gset string) : M (gset string) :=
  if bool_decide (skill_key ∈ acquired) then
    print_wrapped "Cette branche brille déjà. SwimmigStar doit en choisir une autre." >>
    ret acquired
  else
    match catalog_get skill_key skill_catalog with
    | None => raise (KeyError skill_key)
    | Some (name, description, cost) =>
        let* ok := look (fun s => can_spend cost (energy s)) in
        if negb ok then
          print_wrapped "Sa lumière vacille : impossible d'alimenter cette branche pour le moment." >>
          rest (Some "Elle prend le temps de reconstituer son énergie.") >>
          check_energy >>
          ret acquired
        else
          on_energy (spend cost) >>
          update (fun s => set_skills (skills s ++ [name]) s) >>
          print_wrapped ("SwimmigStar nourrit la branche '" +:+ name
            +:+ "' et ressent la promesse suivante :") >>
          print_wrapped description >>
          let* s := look id in
          print_wrapped ("Énergie restante : " +:+ gauge s +:+ ".") >>
          check_energy >>
          ret (acquired ∪ {[ skill_key ]})
    end.

(** The handlers of the menu return [acquired] and the [finished] flag. *)
Definition continue_route (acquired : gset string) : M (gset string * bool) :=
  print_wrapped "Les branches continueront de veiller sur elle." >>
  ret (acquired, true).

Definition skill_options (acquired : gset string) : list (Choice (gset string * bool)) :=
  map (fun '(key, (name, _, cost)) =>
         ("Investir dans '" +:+ name +:+ "' (coût " +:+ pretty cost +:+ ")",
          let* a := learn key acquired in ret (a, false)))
      skill_catalog
  ++ (if bool_decide (acquired ≠ ∅) then [("Continuer sa route", continue_route acquired)] else [])
  ++ [("Se reposer", rest None >> ret (acquired, false))].

Section Engine.
Context {text : TextOps}.

(** The [while True] loop of [run_skill_tree].  Every turn that comes
    back from [prompt_choice] has read a line, so [budget] turns are
    enough once [budget] exceeds the number of lines on standard input
    ([skill_tree_loop_steady] and [run_skill_tree_within_budget] below). *)
Fixpoint skill_tree_loop (budget : nat) (acquired : gset string) : M unit :=
  match budget with
  | O => raise LoopBudget
  | S budget' =>
      let* r := prompt_choice "Quelle branche de lumière activer ?" (skill_options acquired) in
      if r.2 then ret tt
      else check_energy >> skill_tree_loop budget' r.1
  end.

Definition run_skill_tree : M unit :=
  print "" >>
  print_wrapped ("Les fragments de ses souvenirs forment un arbre de compétences. Chaque "
    +:+ "branche réclame une étincelle pour s'épanouir.") >>
  (fun w => skill_tree_loop (S (length (stdin w))) ∅ w) >>
  print_wrapped "Les branches vibrent doucement alors qu'elle s'éloigne de l'arbre.".

Definition encounter_cat_planet : M unit :=
  print "" >>
  print_wrapped ("Dans le néant, un éclat orange et blanc s'approche. Une planète striée de nuages "
    +:+ "abrite des chats qui ronronnent en chœur.") >>
  let* line := input "Comment SwimmigStar nomme-t-elle ce monde ? > " in
  let name := strip line in
  let name := if negb (nonempty name) then "Ronronia" else name in
  print_wrapped ("Les chats de " +:+ name
    +:+ " tissent un halo chaleureux autour de SwimmigStar. Leur "
    +:+ "compagnie augmente sa force.") >>
  update (fun s => set_allies (allies s ++ [name]) s) >>
  on_energy (restore 3) >>
  update (fun s => set_entity_presence (Z.min (entity_presence s + 1) 4) s) >>
  let* s := look id in
  print_wrapped ("Énergie : " +:+ gauge s +:+ ". Alliées présentes : "
    +:+ String.concat ", " (allies s) +:+ ".").

(** ** Planet encounters *)

Record PlanetEncounter : Type := mkPlanetEncounter {
  name : string;
  disposition : string;
  description : string;
  reward : Z;
  penalty : Z
}.

Definition is_beneficial (encounter : PlanetEncounter) : bool :=
  bool_decide (disposition encounter = "benefique").

Definition resist_exhausting_planet : M unit :=
  let* ok := look (fun s => can_spend 2 (energy s)) in
  if negb ok then
    print_wrapped "Elle manque d'énergie pour rompre seule l'emprise. Elle doit se reposer." >>
    rest None >>
    check_energy
  else
    on_energy (spend 2) >>
    update (fun s => set_negative_influence (Z.max 0 (negative_influence s - 1)) s) >>
    print_wrapped "En concentrant sa lueur intérieure, SwimmigStar fend l'étau du monde épuisant." >>
    let* s := look id in
    print_wrapped ("Énergie restante : " +:+ gauge s +:+ ".") >>
    check_energy.

Definition call_allies_against_planet (encounter : PlanetEncounter) : M unit :=
  let* friends := look allies in
  match friends with
  | [] =>
      print_wrapped "Aucune planète alliée n'est assez proche pour l'aider pour l'instant."
  | ally :: others =>
      update (set_allies others) >>
      update (fun s => set_negative_influence (Z.max 0 (negative_influence s - 1)) s) >>
      update (fun s => set_entity_presence (Z.min (entity_presence s + 1) 4) s) >>
      print_wrapped (ally +:+ " jaillit et détourne l'orbite de " +:+ name encounter
        +:+ ", dissipant les " +:+ "ombres qu'elle projetait.")
  end.

Definition consult_wise_entity (encounter : option PlanetEncounter) : M unit :=
  let* presence := look entity_presence in
  if presence <=? 0 then
    print_wrapped "SwimmigStar appelle, mais la voix de l'entité se perd dans le brouillard des mauvaises influences."
  else
    update (fun s => set_entity_trust (entity_trust s + 1) s) >>
    let guidance :=
      match encounter with
      | None =>
          ["Tu n'as pas besoin de brûler tout de suite. Observe, puis choisis ce qui nourrit ta lumière."]
      | Some e =>
          if is_beneficial e then
            ["Ce monde chante sur la même fréquence que toi. Approche-toi sans crainte, mais reste attentive à ton souffle."]
          else
            ["Cette planète veut résoudre ses fractures avec tes forces. N'oublie pas de laisser des alliées te prêter main-forte."]
      end in
    let* influence := look negative_influence in
    let guidance :=
      if influence >? 1 then
        (guidance ++ ["Les influences pesantes s'accumulent. Offre-toi du repos et rappelle une alliée si tu le peux."])%list
      else guidance in
    print_wrapped "La voix de l'entité sage résonne :" >>
    for_each guidance (fun line => print_wrapped ("  « " +:+ line +:+ " »")).

(** The handlers of [interact_with_planet] share the [nonlocal] flag
    [resolved]: each takes its value and returns it as the call leaves
    it. *)
Definition approach (encounter : PlanetEncounter) (resolved : bool) : M bool :=
  if is_beneficial encounter then
    update (fun s => set_allies (allies s ++ [name encounter]) s) >>
    on_energy (restore (reward encounter)) >>
    print_wrapped ("La planète " +:+ name encounter
      +:+ " se rapproche et diffuse une chaleur " +:+ "régénératrice.") >>
    let* s := look id in
    print_wrapped ("Énergie : " +:+ gauge s +:+ ".") >>
    ret true
  else
    let* ok := look (fun s => can_spend (penalty encounter) (energy s)) in
    if negb ok then
      print_wrapped "La planète draine plus qu'elle ne le peut. SwimmigStar chancelle." >>
      on_energy (spend (penalty encounter)) >>
      check_energy >>
      ret resolved
    else
      on_energy (spend (penalty encounter)) >>
      update (fun s => set_negative_influence (negative_influence s + 1) s) >>
      update (fun s => set_entity_presence (Z.max (entity_presence s - 1) 0) s) >>
      print_wrapped (name encounter +:+ " irradie une lumière épuisante. SwimmigStar perd "
        +:+ pretty (penalty encounter) +:+ " énergie.") >>
      let* s := look id in
      print_wrapped ("Réserve actuelle : " +:+ gauge s +:+ ".") >>
      check_energy >>
      prompt_choice "Comment se libérer de cette attraction pénible ?"
        [ ("Résister par ses propres moyens (coût 2)", resist_exhausting_planet);
          ("Demander l'aide d'une planète alliée", call_allies_against_planet encounter);
          ("Se reposer malgré la tension", rest None) ] >>
      ret true.

Definition keep_distance : M bool :=
  print_wrapped ("SwimmigStar reste à bonne distance, observant le monde tourner sans "
    +:+ "l'influencer pour l'instant.") >>
  ret true.

Definition ask_entity (encounter : PlanetEncounter) (resolved : bool) : M bool :=
  consult_wise_entity (Some encounter) >> ret resolved.

Definition take_rest (resolved : bool) : M bool :=
  rest None >> ret resolved.

(** The menu of [interact_with_planet], with [resolved = False] on entry. *)
Definition planet_menu (encounter : PlanetEncounter) : M bool :=
  prompt_choice "Quelle approche adopter ?"
    [ ("S'approcher", approach encounter false);
      ("Garder ses distances", keep_distance);
      ("Demander conseil à l'entité", ask_entity encounter false);
      ("Se reposer", take_rest false) ].

(** The last statements of [interact_with_planet], after the menu. *)
Definition adjust_trust (encounter : PlanetEncounter) (resolved : bool) : M unit :=
  let resolved := if negb resolved then true else resolved in
  let* influence := look negative_influence in
  if is_beneficial encounter && resolved then
    update (fun s => set_entity_trust (entity_trust s + 1) s)
  else if negb (is_beneficial encounter) && (influence >? 0) then
    update (fun s => set_entity_trust (Z.max (entity_trust s - 1) (-3)) s)
  else ret tt.

Definition interact_with_planet (encounter : PlanetEncounter) : M unit :=
  print "" >>
  print_wrapped (description encounter) >>
  let* resolved := planet_menu encounter in
  adjust_trust encounter resolved.

Definition encounters : list PlanetEncounter :=
  [ mkPlanetEncounter "Chrysalis d'Aurore" "benefique"
      ("Une sphère translucide pulse doucement. Chaque pulsation laisse "
       +:+ "échapper des spores de lumière qui cherchent une compagne.") 3 3;
    mkPlanetEncounter "Forteresse des Échos" "epuisante"
      ("Un monde anguleux renvoie chaque rayon en un cri métallique. "
       +:+ "S'en approcher promet un dialogue difficile.") 3 3;
    mkPlanetEncounter "Compas Cristallin" "benefique"
      ("Ses anneaux étincelants semblent capables de réaligner les étoiles "
       +:+ "elles-mêmes.") 3 3;
    mkPlanetEncounter "Tourmente Obscure" "epuisante"
      ("Un vortex de nuages sombres attire SwimmigStar dans une danse "
       +:+ "épuisante, alimentée par des murmures discordants.") 3 3 ].

Definition travel_among_planets : M unit :=
  for_each encounters (fun encounter =>
    interact_with_planet encounter >> check_energy) >>
  print_wrapped ("Entourée de mondes amis et attentive aux influences lourdes, SwimmigStar "
    +:+ "se sent prête à explorer d'autres formes d'existence.").

(** ** The reincarnation journey *)

Definition gain_clarity (amount : Z) : M unit :=
  update (fun s => set_entity_trust (entity_trust s + 1) s) >>
  on_energy (restore amount) >>
  update (fun s => set_entity_presence (Z.min (entity_presence s + 1) 4) s) >>
  let* s := look id in
  print_wrapped ("La clarté jaillit. Énergie : " +:+ gauge s +:+ ".").

Definition gamble_energy (gain cost : Z) : M unit :=
  let* ok := look (fun s => can_spend cost (energy s)) in
  if ok then
    on_energy (spend cost) >>
    print_wrapped ("Le pari consomme " +:+ pretty cost +:+ " énergie.") >>
    on_energy (restore gain) >>
    let* s := look id in
    print_wrapped ("La chance sourit : " +:+ pretty gain +:+ " énergie retrouvée. "
      +:+ gauge s +:+ ".")
  else
    print_wrapped "L'effort est trop grand : SwimmigStar glisse et perd ses forces restantes." >>
    on_energy (spend cost) >>
    check_energy.

Definition bolster_presence : M unit :=
  update (fun s => set_entity_presence (Z.min (entity_presence s + 2) 4) s) >>
  on_energy (restore 1) >>
  print_wrapped "L'entité tisse un voile protecteur, renforçant sa présence autour de SwimmigStar." >>
  let* s := look id in
  print_wrapped ("Énergie : " +:+ gauge s +:+ ".").

Definition soothe_influences : M unit :=
  update (fun s => set_negative_influence (Z.max 0 (negative_influence s - 1)) s) >>
  on_energy (restore 2) >>
  print_wrapped "Les influences pesantes s'apaisent comme des vagues calmées par une brise lumineuse.".

Definition share_burden : M unit :=
  let* friends := look allies in
  match last friends with
  | Some ally =>
      print_wrapped (ally +:+ " accepte de partager la charge émotionnelle de cette transformation.") >>
      on_energy (restore 3)
  | None =>
      print_wrapped "Aucune alliée n'est assez proche, mais l'entité soutient SwimmigStar de toutes ses forces." >>
      on_energy (restore 1)
  end.

Definition weave_support : M unit :=
  let* learnt := look skills in
  let gained_allies :=
    ((if bool_decide ("Lanternes de Guidage" ∈ learnt) then ["Lanterniers du Néant"] else [])
     ++ (if bool_decide ("Berceuse Résonante" ∈ learnt) then ["Chorale des Calmes"] else []))%list in
  update (fun s => set_allies (allies s ++ gained_allies) s) >>
  on_energy (restore 3) >>
  if negb (bool_decide (gained_allies = [])) then
    print_wrapped ("Les compétences acquises appellent de nouvelles présences bienveillantes : "
      +:+ String.concat ", " gained_allies)
  else
    print_wrapped "SwimmigStar se forge seule sa résilience, gagnant tout de même en énergie.".

Definition orchestrate_alliance : M unit :=
  let* friends := look allies in
  let gained := Z.max 1 (Z.of_nat (length friends)) in
  on_energy (restore gained) >>
  update (fun s => set_entity_trust (entity_trust s + 1) s) >>
  print_wrapped ("Dans sa forme humaine, SwimmigStar organise un conseil de mondes alliés. "
    +:+ "Chaque voix sincère lui rend " +:+ pretty gained +:+ " énergie au total.").

Record ReincarnationStage : Type := mkReincarnationStage {
  form_name : string;
  narrative : string;
  listening_effect : M unit;
  impulse_effect : M unit;
  help_effect : M unit
}.

Definition stages : list ReincarnationStage :=
  [ mkReincarnationStage "poussière d'étoile"
      "Réduite à un grain scintillant, elle flotte librement, sensible au moindre souffle cosmique."
      (gain_clarity 2) (gamble_energy 2 1) bolster_presence;
    mkReincarnationStage "goutte de lumière"
      ("Elle devient gouttelette suspendue au bord d'une comète, prête à "
       +:+ "ensemencer une nouvelle aurore.")
      (gain_clarity 2) (gamble_energy 3 2) soothe_influences;
    mkReincarnationStage "comète enfantine"
      ("Sous forme de comète, elle trace une trajectoire imprévisible, "
       +:+ "riant de ses propres étincelles.")
      (gain_clarity 3) (gamble_energy 4 3) share_burden;
    mkReincarnationStage "cellule vivante"
      ("Elle devient cellule, percevant la montée des premières émotions "
       +:+ "comme autant de signaux chimiques.")
      (gain_clarity 3) (gamble_energy 5 4) weave_support;
    mkReincarnationStage "humaine"
      ("Sous forme humaine, elle bâtit une ville inspirée par les histoires "
       +:+ "des mondes rencontrés, entourée de conseillers plus ou moins éclairés.")
      (gain_clarity 4) (gamble_energy 6 5) orchestrate_alliance ].

Definition listen (stage : ReincarnationStage) : M unit :=
  let* presence := look entity_presence in
  if presence <=? 0 then
    print_wrapped "L'entité est muette. SwimmigStar doit compter sur ce qu'elle a appris."
  else
    print_wrapped "Elle écoute attentivement l'entité sage." >>
    listening_effect stage.

Definition follow_impulse (stage : ReincarnationStage) : M unit :=
  print_wrapped "Elle suit son intuition, sans filtre." >>
  impulse_effect stage.

Definition ask_help (stage : ReincarnationStage) : M unit :=
  let* presence := look entity_presence in
  if presence <=? 0 then
    print_wrapped "Même réduite, l'entité ne parvient pas à se manifester. SwimmigStar ressent l'absence."
  else
    print_wrapped "Elle demande une aide active à l'entité, qui se réincarne à ses côtés." >>
    help_effect stage.

Definition conclude_journey : M unit :=
  print "" >>
  print_wrapped ("Au cœur de la ville qu'elle bâtit, SwimmigStar allume un phare rassemblant "
    +:+ "toutes les lueurs rencontrées.") >>
  print_wrapped ("L'entité sage, désormais plus claire, sourit : "
    +:+ "« Tes décisions ont sculpté la lumière qui nous entoure. »") >>
  let* s := look id in
  print_wrapped ("Énergie finale : " +:+ gauge s +:+ ". Alliées : "
    +:+ pretty (Z.of_nat (length (allies s))) +:+ ".") >>
  (if negative_influence s =? 0 then
     print_wrapped "Les mauvaises influences se sont dissipées : l'univers renaît dans un éclat serein."
   else
     print_wrapped "Quelques ombres demeurent, mais SwimmigStar sait désormais comment les éclairer.") >>
  print_wrapped "Merci d'avoir guidé SwimmigStar dans sa traversée.".

(** The body of the [for stage in stages] loop. *)
Definition run_stage (stage : ReincarnationStage) : M unit :=
  print "" >>
  print_wrapped ("SwimmigStar se condense en " +:+ form_name stage +:+ ". "
    +:+ narrative stage) >>
  prompt_choice "Comment avancer dans cette forme ?"
    [ ("Écouter l'entité", listen stage);
      ("Suivre son impulsion", follow_impulse stage);
      ("Demander de l'aide", ask_help stage);
      ("Se reposer", rest None) ] >>
  check_energy.

Definition reincarnation_journey : M unit :=
  print "" >>
  print_wrapped ("Pour comprendre l'origine de la vie et des émotions, SwimmigStar doit se "
    +:+ "réincarner en des formes de plus en plus petites.") >>
  for_each stages run_stage >>
  conclude_journey.

Definition introduce_story : M unit :=
  print_wrapped ("SwimmigStar dérive parmi les tours irisées d'une cité céleste lorsque "
    +:+ "l'onde d'une supernova la propulse loin de ses semblables. Les remparts "
    +:+ "de lumière disparaissent et ne restent plus que l'obscurité et le silence.") >>
  print "" >>
  print_wrapped ("Pour rallumer le cosmos, elle devra tisser de nouvelles lueurs, mais "
    +:+ "chaque action consommera l'énergie qui pulse dans son cœur."
    +:+ " Heureusement, elle peut s'accorder du repos pour retrouver son souffle.") >>
  print "" >>
  print_wrapped ("Une entité sage, changeante comme la marée des émotions, glisse jusqu'à "
    +:+ "elle et promet de rester à ses côtés au fil des réincarnations. "
    +:+ "SwimmigStar pourra choisir de l'écouter, de l'ignorer ou de lui demander "
    +:+ "de l'aide.").

(** [main] once [state] is built: the five chapters in order. *)
Definition play : M unit :=
  introduce_story >>
  run_skill_tree >>
  encounter_cat_planet >>
  travel_among_planets >>
  reincarnation_journey.

(** [main()] on the lines [lines] of standard input. *)
Definition main (lines : list string) : Outcome World unit :=
  play (mkWorld initial_state lines []).

End Engine.

(** ** Running the engine on ASCII input *)

Definition is_space (c : ascii) : bool :=
  let n := nat_of_ascii c in
  ((9 <=? n)%nat && (n <=? 13)%nat) || ((28 <=? n)%nat && (n <=? 32)%nat).

Definition is_digit (c : ascii) : bool :=
  let n := nat_of_ascii c in (48 <=? n)%nat && (n <=? 57)%nat.

Definition to_lower (c : ascii) : ascii :=
  let n := nat_of_ascii c in
  if (65 <=? n)%nat && (n <=? 90)%nat then ascii_of_nat (n + 32) else c.

Fixpoint lstrip (s : string) : string :=
  match s with
  | String c s' => if is_space c then lstrip s' else s
  | EmptyString => s
  end.

Fixpoint rstrip (s : string) : string :=
  match s with
  | String c s' =>
      match rstrip s' with
      | EmptyString => if is_space c then EmptyString else String c EmptyString
      | t => String c t
      end
  | EmptyString => s
  end.

Fixpoint string_map (f : ascii -> ascii) (s : string) : string :=
  match s with
  | String c s' => String (f c) (string_map f s')
  | EmptyString => s
  end.

Fixpoint all_digits (s : string) : bool :=
  match s with
  | String c s' => is_digit c && all_digits s'
  | EmptyString => true
  end.

Fixpoint decimal (acc : Z) (s : string) : Z :=
  match s with
  | String c s' => decimal (10 * acc + Z.of_nat (nat_of_ascii c - 48)) s'
  | EmptyString => acc
  end.

(** Python's [str.strip], [str.lower], [str.isdigit] and [int] on strings
    of ASCII characters ([int] without the interpreter's limit on the
    number of digits).  The theorems below hold for every [TextOps]; this
    instance is the one the examples run on. *)
Definition ascii_text : TextOps :=
  {| strip := fun s => rstrip (lstrip s);
     lower := string_map to_lower;
     isdigit := fun s => nonempty s && all_digits s;
     int := fun s => Some (decimal 0 s) |}.

(** ** Vocabulary of the statements *)

(** The lines [print_menu] writes. *)
Fixpoint menu_lines {A} (index : Z) (choices : list (Choice A)) : list Output :=
  match choices with
  | [] => []
  | (label, _) :: more =>
      Line ("  " +:+ pretty index +:+ ". " +:+ label) :: menu_lines (index + 1) more
  end.

(** What one turn of the prompt has written when it reads its line. *)
Definition asked {A} (question : string) (choices : list (Choice A)) (w : World)
    : World :=
  set_stdout (stdout w ++ Wrapped question :: menu_lines 1 choices ++ [Prompt "> "]) w.

Definition farewell_message : string :=
  "SwimmigStar replie ses rayons pour un temps. À bientôt.".

Definition say (msg : string) (w : World) : World :=
  set_stdout (stdout w ++ [Wrapped msg]) w.

Definition pool_ok (p : EnergyPool) : Prop :=
  0 <= current p <= maximum p.

Definition invariant (s : GameState) : Prop :=
  pool_ok (energy s) /\ 0 <= entity_presence s <= 4 /\ 0 <= negative_influence s.

(** A procedure preserves the invariant when the state it stops in, by
    returning or by raising, satisfies the invariant whenever the state it
    started in did. *)
Definition preserves {A} (m : M A) : Prop :=
  forall w, invariant (state w) -> invariant (state (final (m w))).

Definition pool_preserves {A} (op : ST EnergyPool A) : Prop :=
  forall p, pool_ok p -> pool_ok (final (op p)).

(** What every procedure of the engine does to the world: it keeps the
    invariant, it never exhausts the loop budget, and it only takes lines
    off standard input. *)
Definition steady {A} (w : World) (o : Outcome World A) : Prop :=
  (invariant (state w) -> invariant (state (final o))) /\
  raised o <> Some LoopBudget /\
  (length (stdin (final o)) <= length (stdin w))%nat.

Definition sound {A} (m : M A) : Prop := forall w, steady w (m w).

(** A line chooses entry [value] of a menu when it is not a quit keyword
    and reads as that number. *)
Definition selects {text : TextOps} (line : string) (value : Z) : Prop :=
  quit_keyword (lower (strip line)) = false /\
  isdigit (strip line) = true /\
  int (strip line) = Some value.

Definition overreach_message : string :=
  "La planète draine plus qu'elle ne le peut. SwimmigStar chancelle.".

Definition ending_message : string :=
  "À force d'efforts, SwimmigStar s'éteint et dérive dans le vide. L'univers attendra un autre cycle pour se réveiller.".

(** The state after paying [cost] for the skill [name]. *)
Definition learnt (name : string) (cost : Z) (s : GameState) : GameState :=
  set_skills (skills s ++ [name])
    (set_energy (mkEnergyPool (current (energy s) - cost) (maximum (energy s))) s).

Definition already_acquired_message : string :=
  "Cette branche brille déjà. SwimmigStar doit en choisir une autre.".

(** ** Statements over every input *)

(** [ensures m s Q E]: started in the game state [s], whatever is left on
    standard input and whatever was written before, [m] either returns a
    value and a state that satisfy [Q], or raises an exception and stops in
    a state that satisfy [E]. *)
Definition ensures {A} (m : M A) (s : GameState)
    (Q : A -> GameState -> Prop) (E : Stop -> GameState -> Prop) : Prop :=
  forall lines out,
    match m (mkWorld s lines out) with
    | Done a w' => Q a (state w')
    | Halt e w' => E e (state w')
    end.

(** The state [rest] leaves: one more rest counted, 4 energy back up to the
    maximum, one more point of presence up to 4. *)
Definition rested (s : GameState) : GameState :=
  mkGameState
    (mkEnergyPool (Z.min (maximum (energy s)) (current (energy s) + 4))
       (maximum (energy s)))
    (skills s) (allies s) (negative_influence s)
    (Z.min (entity_presence s + 1) 4) (entity_trust s) (rest_count s + 1).

(** The state with the pool's [current] replaced. *)
Definition with_current (c : Z) (s : GameState) : GameState :=
  set_energy (mkEnergyPool c (maximum (energy s))) s.

(** The state after [restore(amount)] with a non-negative amount. *)
Definition restored (amount : Z) (s : GameState) : GameState :=
  with_current (Z.min (maximum (energy s)) (current (energy s) + amount)) s.

(** [int] raises on some string that [isdigit] accepts. *)
Definition int_can_fail {text : TextOps} : Prop :=
  exists raw, isdigit raw = true /\ int raw = None.

(** The exceptions a run is expected to end on: [SystemExit] (quit, end of
    input at a menu, or no energy left), [EOFError] (end of input at the
    naming of the cat planet) and the [ValueError] of [int]. *)
Definition expected {text : TextOps} (e : Stop) : Prop :=
  e = SystemExit \/ e = EOFError \/
  (e = ValueError "invalid literal for int()" /\ int_can_fail).

(** Bounds on the gauges: the pool's maximum is [top], [entity_presence] is
    at least [n], [entity_trust] at least [t], [negative_influence] at most
    [k], and the skill list satisfies [known]. *)
Definition within (top n t k : Z) (known : list string -> Prop) (s : GameState) : Prop :=
  maximum (energy s) = top /\ n <= entity_presence s /\
  t <= entity_trust s /\ negative_influence s <= k /\ known (skills s).

(** The names of the catalog, in its order. *)
Definition skill_names : list string :=
  map (fun '(_, (name, _, _)) => name) skill_catalog.

(** A choice of skills: at least one and at most three names of the
    catalog, none twice. *)
Definition chosen_skills (l : list string) : Prop :=
  l <> [] /\ NoDup l /\ (forall x, x ∈ l -> x ∈ skill_names) /\
  (length l <= 3)%nat.

(** The name under which a key is learnt. *)
Definition skill_name (key : string) : option string :=
  match catalog_get key skill_catalog with
  | Some (name, _, _) => Some name
  | None => None
  end.

(** What the skills not acquired yet would cost together. *)
Definition remaining_cost (acquired : gset string) : Z :=
  fold_right (fun '(key, (_, _, cost)) total =>
                if bool_decide (key ∈ acquired) then total else cost + total)
    0 skill_catalog.

(** The skills learnt so far, matched with the keys marked as acquired. *)
Definition learnt_so_far (before : list string) (acquired : gset string)
    (s : GameState) : Prop :=
  exists l,
    skills s = (before ++ l)%list /\ NoDup l /\
    (forall x, x ∈ l -> exists key, key ∈ acquired /\ skill_name key = Some x) /\
    (forall key, key ∈ acquired -> exists x, skill_name key = Some x /\ x ∈ l).

(** * Properties *)

(** ** EnergyPool *)

Lemma spend_negative p amount :
  amount < 0 -> spend amount p = Halt (ValueError "Le coût doit être positif.") p.
Proof.
  intros H. unfold spend. destruct (Z.ltb_spec amount 0); [reflexivity | lia].
Qed.

Lemma spend_short p amount :
  0 <= amount -> amount > current p ->
  spend amount p = Done false (mkEnergyPool 0 (maximum p)).
Proof.
  intros H0 H. unfold spend. destruct (Z.ltb_spec amount 0); [lia |].
  unfold bind, gets, can_spend.
  destruct (Z.geb_spec (current p) amount); [lia | reflexivity].
Qed.

Lemma spend_paid p amount :
  0 <= amount -> amount <= current p ->
  spend amount p = Done true (mkEnergyPool (current p - amount) (maximum p)).
Proof.
  intros H0 H. unfold spend. destruct (Z.ltb_spec amount 0); [lia |].
  unfold bind, gets, can_spend.
  destruct (Z.geb_spec (current p) amount); [reflexivity | lia].
Qed.

(** C1. [spend] raises [ValueError] on a negative amount; on an amount above
    [current] it sets [current] to 0 and returns [False]; otherwise it
    deducts the amount and returns [True].  From 10/12, [spend(3)] returns
    [True] leaving 7, then [spend(20)] returns [False] leaving 0. *)
Theorem spend_spec (p : EnergyPool) (amount : Z) :
  (amount < 0 ->
     spend amount p = Halt (ValueError "Le coût doit être positif.") p) /\
  (0 <= amount -> amount > current p ->
     spend amount p = Done false (mkEnergyPool 0 (maximum p))) /\
  (0 <= amount -> amount <= current p ->
     spend amount p = Done true (mkEnergyPool (current p - amount) (maximum p))) /\
  spend 3 (mkEnergyPool 10 12) = Done true (mkEnergyPool 7 12) /\
  spend 20 (mkEnergyPool 7 12) = Done false (mkEnergyPool 0 12).
Proof.
  split; [apply spend_negative |].
  split; [apply spend_short |].
  split; [apply spend_paid |].
  split; reflexivity.
Qed.

Lemma spend_spec_witness :
  spend (-1) (mkEnergyPool 10 12)
    = Halt (ValueError "Le coût doit être positif.") (mkEnergyPool 10 12) /\
  spend 20 (mkEnergyPool 7 12) = Done false (mkEnergyPool 0 12) /\
  spend 3 (mkEnergyPool 10 12) = Done true (mkEnergyPool 7 12).
Proof.
  pose proof (spend_spec (mkEnergyPool 10 12) (-1)) as (Hneg & _).
  pose proof (spend_spec (mkEnergyPool 7 12) 20) as (_ & Hfail & _).
  pose proof (spend_spec (mkEnergyPool 10 12) 3) as (_ & _ & Hok & _).
  split; [| split].
  - apply Hneg. reflexivity.
  - apply Hfail; [discriminate | reflexivity].
  - apply Hok; discriminate.
Defined.

(** C9. [restore] raises [ValueError] on a negative amount and otherwise
    sets [current] to [min(maximum, current + amount)]; on a full pool
    ([current = maximum]) every non-negative amount leaves it as it is. *)
Theorem restore_spec (p : EnergyPool) (amount : Z) :
  (amount < 0 ->
     restore amount p = Halt (ValueError "La restauration doit être positive.") p) /\
  (0 <= amount ->
     restore amount p
       = Done tt (mkEnergyPool (Z.min (maximum p) (current p + amount)) (maximum p))) /\
  (0 <= amount -> current p = maximum p -> restore amount p = Done tt p).
Proof.
  unfold restore. repeat split; intros.
  - destruct (Z.ltb_spec amount 0); [reflexivity | lia].
  - destruct (Z.ltb_spec amount 0); [lia | reflexivity].
  - destruct (Z.ltb_spec amount 0); [lia |].
    destruct p as [c m]; simpl in *; subst c.
    unfold modify, set_current; simpl. do 2 f_equal. lia.
Qed.

Lemma restore_spec_witness :
  restore (-2) (mkEnergyPool 5 12)
    = Halt (ValueError "La restauration doit être positive.") (mkEnergyPool 5 12) /\
  restore 4 (mkEnergyPool 10 12) = Done tt (mkEnergyPool 12 12) /\
  restore 4 (mkEnergyPool 12 12) = Done tt (mkEnergyPool 12 12).
Proof.
  pose proof (restore_spec (mkEnergyPool 5 12) (-2)) as (Hneg & _).
  pose proof (restore_spec (mkEnergyPool 10 12) 4) as (_ & Hmin & _).
  pose proof (restore_spec (mkEnergyPool 12 12) 4) as (_ & _ & Hfull).
  split; [| split].
  - apply Hneg. reflexivity.
  - apply Hmin. discriminate.
  - apply Hfull; [discriminate | reflexivity].
Defined.

(** ** Stepping through procedures *)

Lemma bind_done {S A B} (m : ST S A) (k : A -> ST S B) s a s' :
  m s = Done a s' -> bind m k s = k a s'.
Proof. unfold bind. intros ->. reflexivity. Qed.

Lemma bind_halt {S A B} (m : ST S A) (k : A -> ST S B) s e s' :
  m s = Halt e s' -> bind m k s = Halt e s'.
Proof. unfold bind. intros ->. reflexivity. Qed.

Lemma print_menu_eq {A} (choices : list (Choice A)) index w :
  print_menu index choices w
    = Done tt (set_stdout (stdout w ++ menu_lines index choices) w).
Proof.
  revert index w. induction choices as [| [label h] more IH]; intros index w.
  - cbn [print_menu menu_lines]. unfold ret, set_stdout.
    rewrite app_nil_r. destruct w; reflexivity.
  - cbn [print_menu menu_lines]. unfold print, emit.
    erewrite bind_done by reflexivity. rewrite IH.
    unfold set_stdout; cbn [state stdin stdout].
    rewrite <- app_assoc. reflexivity.
Qed.

Section PromptFacts.
Context {text : TextOps}.

Lemma prompt_choice_on_eq {A} question (choices : list (Choice A)) lines w :
  prompt_choice_on question choices lines w =
  match lines with
  | [] => Halt SystemExit (say farewell_message (asked question choices w))
  | line :: more =>
      let w' := set_stdin more (asked question choices w) in
      if quit_keyword (lower (strip line)) then
        Halt SystemExit (say farewell_message w')
      else if negb (isdigit (strip line)) then
        prompt_choice_on question choices more
          (say "Entre le numéro correspondant à ton choix." w')
      else
        match int (strip line) with
        | None => Halt (ValueError "invalid literal for int()") w'
        | Some value =>
            if negb ((1 <=? value) && (value <=? Z.of_nat (length choices))) then
              prompt_choice_on question choices more
                (say "Choix invalide, essaie encore." w')
            else
              match choices !! Z.to_nat (value - 1) with
              | Some (_, handler) => handler w'
              | None => Halt IndexError w'
              end
        end
  end.
Proof.
  assert (Hask : forall B (k : ST World B),
    (print_wrapped question >> print_menu 1 choices >> emit (Prompt "> ") >> k) w
      = k (asked question choices w)).
  { intros B k. unfold print_wrapped, emit.
    erewrite bind_done by reflexivity.
    erewrite bind_done by apply print_menu_eq.
    erewrite bind_done by reflexivity.
    f_equal. unfold asked, set_stdout; cbn [state stdin stdout].
    rewrite <- !app_assoc. reflexivity. }
  destruct lines as [| line more]; cbn [prompt_choice_on]; rewrite Hask.
  - reflexivity.
  - erewrite bind_done by reflexivity. cbv zeta.
    destruct (quit_keyword (lower (strip line))); [reflexivity |].
    destruct (negb (isdigit (strip line))); [reflexivity |].
    destruct (int (strip line)) as [value |]; [| reflexivity].
    destruct (negb _); [reflexivity |].
    destruct (choices !! Z.to_nat (value - 1)) as [[label handler] |]; reflexivity.
Qed.

End PromptFacts.

(** ** The state invariant *)

Lemma sound_preserves {A} (m : M A) : sound m -> preserves m.
Proof. intros H w. apply (H w). Qed.

Ltac steady_parts := unfold steady; split; [| split].

Lemma sound_ret {A} (a : A) : sound (ret a).
Proof. intros w. steady_parts; cbn; [auto | discriminate | lia]. Qed.

Lemma sound_raise {A} e : e <> LoopBudget -> sound (@raise World A e).
Proof. intros He w. steady_parts; cbn; [auto | congruence | lia]. Qed.

Lemma sound_bind {A B} (m : M A) (k : A -> M B) :
  sound m -> (forall a, sound (k a)) -> sound (bind m k).
Proof.
  intros Hm Hk w. unfold bind. destruct (Hm w) as (Hi & Hb & Hl).
  destruct (m w) as [a w' | e w']; cbn in *.
  - destruct (Hk a w') as (Hi' & Hb' & Hl'). steady_parts; [auto | auto | lia].
  - steady_parts; auto.
Qed.

Lemma sound_emit o : sound (emit o).
Proof. intros w. steady_parts; cbn; [auto | discriminate | lia]. Qed.

Lemma sound_print_wrapped msg : sound (print_wrapped msg).
Proof. apply sound_emit. Qed.

Lemma sound_print line : sound (print line).
Proof. apply sound_emit. Qed.

Lemma sound_look {A} (f : GameState -> A) : sound (look f).
Proof. intros w. steady_parts; cbn; [auto | discriminate | lia]. Qed.

Lemma sound_update f :
  (forall s, invariant s -> invariant (f s)) -> sound (update f).
Proof. intros Hf w. steady_parts; cbn; [auto | discriminate | lia]. Qed.

Lemma sound_on_energy {A} (op : ST EnergyPool A) :
  pool_preserves op -> (forall p, raised (op p) <> Some LoopBudget) ->
  sound (on_energy op).
Proof.
  intros Hp Hb w. unfold on_energy.
  specialize (Hp (energy (state w))). specialize (Hb (energy (state w))).
  destruct (op (energy (state w))) as [a p | e p]; cbn in *;
    (steady_parts; cbn; [| auto | lia]);
    intros (? & ? & ?); split; cbn; auto.
Qed.

Lemma spend_pool_preserves amount : pool_preserves (spend amount).
Proof.
  intros p Hp. unfold spend, pool_ok in *.
  destruct (Z.ltb_spec amount 0); [exact Hp |].
  unfold bind, gets, can_spend.
  destruct (Z.geb_spec (current p) amount); cbn; lia.
Qed.

Lemma restore_pool_preserves amount : pool_preserves (restore amount).
Proof.
  intros p Hp. unfold restore, pool_ok in *.
  destruct (Z.ltb_spec amount 0); [exact Hp |]. cbn. lia.
Qed.

Lemma spend_raises amount p : raised (spend amount p) <> Some LoopBudget.
Proof.
  unfold spend. destruct (amount <? 0); [discriminate |].
  unfold bind, gets. destruct (negb _); discriminate.
Qed.

Lemma restore_raises amount p : raised (restore amount p) <> Some LoopBudget.
Proof. unfold restore. destruct (amount <? 0); discriminate. Qed.

Lemma sound_spend amount : sound (on_energy (spend amount)).
Proof. apply sound_on_energy; [apply spend_pool_preserves | apply spend_raises]. Qed.

Lemma sound_restore amount : sound (on_energy (restore amount)).
Proof. apply sound_on_energy; [apply restore_pool_preserves | apply restore_raises]. Qed.

Lemma sound_input prompt : sound (input prompt).
Proof.
  intros w. unfold input, emit. erewrite bind_done by reflexivity.
  destruct w as [s [| line more] o]; cbn;
    (steady_parts; cbn; [auto | discriminate | lia]).
Qed.

Lemma sound_farewell {A} : sound (@farewell A).
Proof.
  apply sound_bind; [apply sound_print_wrapped | intros _].
  apply sound_raise. discriminate.
Qed.

Lemma sound_for_each {A} (items : list A) (body : A -> M unit) :
  (forall x, sound (body x)) -> sound (for_each items body).
Proof.
  intros Hb. induction items as [| x more IH]; cbn [for_each].
  - apply sound_ret.
  - apply sound_bind; auto.
Qed.

Create HintDb sound.
#[local] Hint Resolve sound_ret sound_emit sound_print_wrapped sound_print
  sound_look sound_spend sound_restore sound_input sound_farewell : sound.

(** Side condition of [sound_update]: the assignment keeps the invariant. *)
Ltac keep_invariant :=
  let s := fresh "s" in
  intros s (? & ? & ?); unfold invariant, pool_ok in *; cbn; lia.

(** Walk through a procedure built from the pieces above. *)
Ltac sound_step :=
  match goal with
  | |- sound (bind _ _) => apply sound_bind; [| intros ?]
  | |- sound (update _) => apply sound_update; keep_invariant
  | |- sound (raise _) => apply sound_raise; discriminate
  | |- sound (for_each _ _) => apply sound_for_each; intros ?
  | |- sound (if ?b then _ else _) => destruct b
  | |- sound (match ?x with _ => _ end) => destruct x
  | |- sound _ => solve [auto with sound]
  end.

Ltac sound_walk := repeat sound_step.

Lemma sound_check_energy : sound check_energy.
Proof. unfold check_energy. sound_walk. Qed.

Lemma sound_rest reason : sound (rest reason).
Proof. unfold rest. sound_walk. Qed.

#[local] Hint Resolve sound_check_energy sound_rest : sound.

Section EngineFacts.
Context {text : TextOps}.

(** A prompt whose handlers are sound keeps the invariant, and when a
    handler has run at least the line that chose it is gone. *)
Lemma prompt_choice_on_steady {A} question (choices : list (Choice A)) :
  Forall (fun c => sound c.2) choices ->
  forall lines w, stdin w = lines ->
    let o := prompt_choice_on question choices lines w in
    (invariant (state w) -> invariant (state (final o))) /\
    raised o <> Some LoopBudget /\
    (length (stdin (final o)) <= length lines)%nat /\
    (forall a w', o = Done a w' -> (length (stdin w') < length lines)%nat).
Proof.
  intros Hs. induction lines as [| line more IH]; intros w Hw o; subst o;
    rewrite prompt_choice_on_eq.
  - split; [| split; [| split]]; cbn; rewrite ?Hw;
      [auto | discriminate | cbn; lia | discriminate].
  - cbv zeta.
    set (w' := set_stdin more (asked question choices w)).
    assert (Hstop : forall (e : Stop) w0, e <> LoopBudget -> state w0 = state w ->
      stdin w0 = more ->
      let o : Outcome World A := Halt e w0 in
      (invariant (state w) -> invariant (state (final o))) /\
      raised o <> Some LoopBudget /\
      (length (stdin (final o)) <= length (line :: more))%nat /\
      (forall a w'', o = Done a w'' ->
         (length (stdin w'') < length (line :: more))%nat)).
    { intros e w0 He Hst Hin. cbn. rewrite Hst, Hin.
      split; [| split; [| split]]; [auto | congruence | lia | discriminate]. }
    assert (Hrec : forall msg,
      let o := prompt_choice_on question choices more (say msg w') in
      (invariant (state w) -> invariant (state (final o))) /\
      raised o <> Some LoopBudget /\
      (length (stdin (final o)) <= length (line :: more))%nat /\
      (forall a w'', o = Done a w'' ->
         (length (stdin w'') < length (line :: more))%nat)).
    { intros msg. destruct (IH (say msg w') eq_refl) as (Hi & Hb & Hl & Hd).
      cbn [length]. split; [| split; [| split]]; auto.
      intros a w'' E. specialize (Hd a w'' E). lia. }
    destruct (quit_keyword (lower (strip line))).
    { apply Hstop; [discriminate | reflexivity | reflexivity]. }
    destruct (negb (isdigit (strip line))); [apply Hrec |].
    destruct (int (strip line)) as [value |].
    2:{ apply Hstop; [discriminate | reflexivity | reflexivity]. }
    destruct (negb _); [apply Hrec |].
    destruct (choices !! Z.to_nat (value - 1)) as [[label handler] |] eqn:E.
    2:{ apply Hstop; [discriminate | reflexivity | reflexivity]. }
    pose proof (Forall_lookup_1 _ _ _ _ Hs E) as Hh; cbn in Hh.
    destruct (Hh w') as (Hi & Hb & Hl). cbn in Hl.
    cbn [length]. split; [| split; [| split]]; auto; try lia.
    intros a w'' E'. rewrite E' in Hl; cbn in Hl. lia.
Qed.

Lemma sound_prompt_choice {A} question (choices : list (Choice A)) :
  Forall (fun c => sound c.2) choices -> sound (prompt_choice question choices).
Proof.
  intros Hs w. unfold prompt_choice.
  destruct (prompt_choice_on_steady question choices Hs (stdin w) w eq_refl)
    as (Hi & Hb & Hl & _).
  steady_parts; auto.
Qed.

Lemma prompt_choice_reads {A} question (choices : list (Choice A)) w a w' :
  Forall (fun c => sound c.2) choices ->
  prompt_choice question choices w = Done a w' ->
  (length (stdin w') < length (stdin w))%nat.
Proof.
  intros Hs E.
  destruct (prompt_choice_on_steady question choices Hs (stdin w) w eq_refl)
    as (_ & _ & _ & Hd).
  eapply Hd, E.
Qed.

(** A menu is sound when each of its handlers is. *)
Ltac sound_menu :=
  apply sound_prompt_choice;
  repeat (apply List.Forall_cons; [cbn [snd] |]); [.. | apply List.Forall_nil].

Lemma sound_learn key acquired : sound (learn key acquired).
Proof.
  unfold learn. destruct (bool_decide (key ∈ acquired)); [sound_walk |].
  destruct (catalog_get key skill_catalog) as [[[name description] cost] |];
    sound_walk.
Qed.

Lemma sound_skill_options acquired :
  Forall (fun c => sound c.2) (skill_options acquired).
Proof.
  unfold skill_options, skill_catalog. cbn [map].
  destruct (bool_decide (acquired ≠ ∅)); cbn [app];
    repeat (apply List.Forall_cons; [cbn [snd] |]); try apply List.Forall_nil;
    unfold continue_route; sound_walk; apply sound_learn.
Qed.

(** The budget is never the reason the skill-tree loop stops: a turn
    that goes on has read a line. *)
Lemma skill_tree_loop_steady budget : forall acquired w,
  (length (stdin w) < budget)%nat ->
  steady w (skill_tree_loop budget acquired w).
Proof.
  induction budget as [| budget IH]; intros acquired w Hlen; [lia |].
  cbn [skill_tree_loop]. unfold bind at 1.
  pose proof (sound_prompt_choice "Quelle branche de lumière activer ?"
                _ (sound_skill_options acquired) w) as (Hi & Hb & Hl).
  destruct (prompt_choice _ _ w) as [[acquired' finished] w1 | e w1] eqn:E;
    cbn [final raised] in *.
  2:{ steady_parts; auto. }
  apply prompt_choice_reads in E; [| apply sound_skill_options].
  cbn [fst snd]. destruct finished.
  { steady_parts; cbn; [auto | discriminate | lia]. }
  unfold bind at 1.
  destruct (sound_check_energy w1) as (Hi1 & Hb1 & Hl1).
  destruct (check_energy w1) as [[] w2 | e w2]; cbn [final raised] in *.
  2:{ steady_parts; cbn; [auto | auto | lia]. }
  destruct (IH acquired' w2) as (Hi2 & Hb2 & Hl2); [lia |].
  steady_parts; [auto | auto | lia].
Qed.

Lemma sound_run_skill_tree : sound run_skill_tree.
Proof.
  unfold run_skill_tree. sound_walk.
  intros w. apply skill_tree_loop_steady. lia.
Qed.

Lemma sound_encounter_cat_planet : sound encounter_cat_planet.
Proof. unfold encounter_cat_planet. sound_walk. Qed.

Lemma sound_resist_exhausting_planet : sound resist_exhausting_planet.
Proof. unfold resist_exhausting_planet. sound_walk. Qed.

Lemma sound_call_allies_against_planet encounter :
  sound (call_allies_against_planet encounter).
Proof. unfold call_allies_against_planet. sound_walk. Qed.

Lemma sound_consult_wise_entity encounter : sound (consult_wise_entity encounter).
Proof. unfold consult_wise_entity. sound_walk. Qed.

Lemma sound_approach encounter resolved : sound (approach encounter resolved).
Proof.
  unfold approach. sound_walk. sound_menu;
    auto using sound_resist_exhausting_planet,
      sound_call_allies_against_planet with sound.
Qed.

Lemma sound_planet_menu encounter : sound (planet_menu encounter).
Proof.
  unfold planet_menu. sound_menu; unfold keep_distance, ask_entity, take_rest;
    sound_walk; auto using sound_approach, sound_consult_wise_entity.
Qed.

Lemma sound_adjust_trust encounter resolved : sound (adjust_trust encounter resolved).
Proof. unfold adjust_trust. sound_walk. Qed.

Lemma sound_interact_with_planet encounter : sound (interact_with_planet encounter).
Proof.
  unfold interact_with_planet. sound_walk;
    auto using sound_planet_menu, sound_adjust_trust.
Qed.

Lemma sound_travel_among_planets : sound travel_among_planets.
Proof.
  unfold travel_among_planets. sound_walk. apply sound_interact_with_planet.
Qed.

Lemma sound_gain_clarity amount : sound (gain_clarity amount).
Proof. unfold gain_clarity. sound_walk. Qed.

Lemma sound_gamble_energy gain cost : sound (gamble_energy gain cost).
Proof. unfold gamble_energy. sound_walk. Qed.

Lemma sound_bolster_presence : sound bolster_presence.
Proof. unfold bolster_presence. sound_walk. Qed.

Lemma sound_soothe_influences : sound soothe_influences.
Proof. unfold soothe_influences. sound_walk. Qed.

Lemma sound_share_burden : sound share_burden.
Proof. unfold share_burden. sound_walk. Qed.

Lemma sound_weave_support : sound weave_support.
Proof. unfold weave_support. sound_walk. Qed.

Lemma sound_orchestrate_alliance : sound orchestrate_alliance.
Proof. unfold orchestrate_alliance. sound_walk. Qed.

Lemma sound_stages : Forall (fun stage =>
  sound (listening_effect stage) /\ sound (impulse_effect stage) /\
  sound (help_effect stage)) stages.
Proof.
  unfold stages.
  repeat (apply List.Forall_cons;
          [cbn [listening_effect impulse_effect help_effect]; split; [| split] |]);
    try apply List.Forall_nil;
    auto using sound_gain_clarity, sound_gamble_energy, sound_bolster_presence,
      sound_soothe_influences, sound_share_burden, sound_weave_support,
      sound_orchestrate_alliance.
Qed.

Lemma sound_run_stage stage :
  sound (listening_effect stage) -> sound (impulse_effect stage) ->
  sound (help_effect stage) -> sound (run_stage stage).
Proof.
  intros Hl Hi Hh. unfold run_stage. sound_walk.
  sound_menu; unfold listen, follow_impulse, ask_help; sound_walk; auto.
Qed.

Lemma sound_conclude_journey : sound conclude_journey.
Proof. unfold conclude_journey. sound_walk. Qed.

Lemma sound_for_each_in {A} (items : list A) (body : A -> M unit) :
  Forall (fun x => sound (body x)) items -> sound (for_each items body).
Proof.
  induction 1 as [| x more Hx _ IH]; cbn [for_each].
  - apply sound_ret.
  - apply sound_bind; auto.
Qed.

Lemma sound_reincarnation_journey : sound reincarnation_journey.
Proof.
  unfold reincarnation_journey.
  apply sound_bind; [auto with sound | intros _].
  apply sound_bind; [auto with sound | intros _].
  apply sound_bind; [| intros _; apply sound_conclude_journey].
  apply sound_for_each_in.
  eapply Forall_impl; [apply sound_stages |].
  intros stage (? & ? & ?). apply sound_run_stage; auto.
Qed.

Lemma sound_introduce_story : sound introduce_story.
Proof. unfold introduce_story. sound_walk. Qed.

Lemma sound_play : sound play.
Proof.
  unfold play. sound_walk;
    auto using sound_introduce_story, sound_run_skill_tree,
      sound_encounter_cat_planet, sound_travel_among_planets,
      sound_reincarnation_journey.
Qed.

End EngineFacts.

(** ** The claims about the engine *)

(** C2. The invariant [0 <= energy.current <= energy.maximum],
    [0 <= entity_presence <= 4] and [negative_influence >= 0] holds in the
    initial state and is kept by every operation: the EnergyPool methods
    called with a non-negative amount, every handler and effect of the
    skill tree, of the encounters and of the journey, and so by the whole
    run on any input, whether the operation returns or raises. *)
Theorem invariant_preserved {text : TextOps} :
  invariant initial_state /\
  (forall amount p, 0 <= amount -> pool_ok p ->
     pool_ok (final (spend amount p)) /\ pool_ok (final (restore amount p))) /\
  (forall amount, 0 <= amount ->
     preserves (on_energy (spend amount)) /\ preserves (on_energy (restore amount))) /\
  (forall reason, preserves (rest reason)) /\
  (forall key acquired, preserves (learn key acquired)) /\
  preserves run_skill_tree /\
  preserves encounter_cat_planet /\
  (forall encounter resolved, preserves (approach encounter resolved)) /\
  preserves resist_exhausting_planet /\
  (forall encounter, preserves (call_allies_against_planet encounter)) /\
  (forall encounter, preserves (consult_wise_entity encounter)) /\
  (forall encounter, preserves (interact_with_planet encounter)) /\
  preserves travel_among_planets /\
  (forall amount, preserves (gain_clarity amount)) /\
  (forall gain cost, preserves (gamble_energy gain cost)) /\
  preserves bolster_presence /\
  preserves soothe_influences /\
  preserves share_burden /\
  preserves weave_support /\
  preserves orchestrate_alliance /\
  (forall stage, stage ∈ stages -> preserves (run_stage stage)) /\
  preserves reincarnation_journey /\
  (forall lines, invariant (state (final (main lines)))).
Proof.
  assert (H0 : invariant initial_state).
  { unfold invariant, pool_ok; cbn; lia. }
  repeat match goal with |- _ /\ _ => split end;
    try (intros; apply sound_preserves);
    auto using sound_spend, sound_restore, sound_rest, sound_learn,
      sound_run_skill_tree, sound_encounter_cat_planet, sound_approach,
      sound_resist_exhausting_planet, sound_call_allies_against_planet,
      sound_consult_wise_entity, sound_interact_with_planet,
      sound_travel_among_planets, sound_gain_clarity, sound_gamble_energy,
      sound_bolster_presence, sound_soothe_influences, sound_share_burden,
      sound_weave_support, sound_orchestrate_alliance,
      sound_reincarnation_journey.
  - intros amount p _ Hp. split;
      [apply spend_pool_preserves | apply restore_pool_preserves]; exact Hp.
  - intros amount _. split; apply sound_preserves;
      [apply sound_spend | apply sound_restore].
  - match goal with H : _ ∈ stages |- _ => rename H into Hin end.
    pose proof (proj1 (Forall_forall _ _) sound_stages _ Hin) as (? & ? & ?).
    apply sound_run_stage; auto.
  - intros lines. unfold main. apply (sound_preserves _ sound_play). exact H0.
Qed.

Lemma invariant_preserved_witness :
  pool_ok (final (spend 3 (mkEnergyPool 10 12))) /\
  invariant (state (final (rest None (mkWorld initial_state [] [])))).
Proof.
  pose proof (@invariant_preserved ascii_text) as (H0 & Hpool & _ & Hrest & _).
  split.
  - apply (Hpool 3 (mkEnergyPool 10 12)); [lia | unfold pool_ok; cbn; lia].
  - apply (Hrest None (mkWorld initial_state [] [])). exact H0.
Defined.

(** C3, as the code has it. [share_burden] reads the last ally for its
    message and leaves the ally list as it is: with an ally it restores 3
    energy (capped at the maximum), with none it restores 1. *)
Theorem share_burden_spec (w : World) :
  allies (state (final (share_burden w))) = allies (state w) /\
  (forall ally, last (allies (state w)) = Some ally ->
     share_burden w = Done tt
       (set_state
          (set_energy
             (mkEnergyPool
                (Z.min (maximum (energy (state w))) (current (energy (state w)) + 3))
                (maximum (energy (state w))))
             (state w))
          (say (ally +:+ " accepte de partager la charge émotionnelle de cette transformation.") w))) /\
  (allies (state w) = [] ->
     share_burden w = Done tt
       (set_state
          (set_energy
             (mkEnergyPool
                (Z.min (maximum (energy (state w))) (current (energy (state w)) + 1))
                (maximum (energy (state w))))
             (state w))
          (say "Aucune alliée n'est assez proche, mais l'entité soutient SwimmigStar de toutes ses forces." w))).
Proof.
  unfold share_burden, bind, look, gets.
  split; [| split].
  - destruct (last (allies (state w))); reflexivity.
  - intros ally ->. reflexivity.
  - intros ->. reflexivity.
Qed.

Lemma share_burden_spec_witness :
  let w := mkWorld (mkGameState (mkEnergyPool 5 12) [] ["Ronronia"] 0 3 0 0) [] [] in
  state (final (share_burden w))
    = mkGameState (mkEnergyPool 8 12) [] ["Ronronia"] 0 3 0 0.
Proof.
  intros w.
  pose proof (share_burden_spec w) as (_ & Hlast & _).
  rewrite (Hlast "Ronronia" eq_refl). reflexivity.
Defined.

(** C3 as claimed fails: with one ally in the list, the list after
    [share_burden] is not the list without its last ally. *)
Lemma share_burden_keeps_last_ally :
  let w := mkWorld (mkGameState (mkEnergyPool 5 12) [] ["Ronronia"] 0 3 0 0) [] [] in
  allies (state w) <> [] /\
  allies (state (final (share_burden w))) = ["Ronronia"] /\
  allies (state (final (share_burden w))) <> removelast (allies (state w)).
Proof. cbn. repeat split; discriminate. Qed.

(** C4. [call_allies_against_planet] with no ally only prints its message:
    the state is not touched.  With allies it removes the first one,
    lowers [negative_influence] by one but not below 0, raises
    [entity_presence] by one but not above 4, and leaves energy and
    [entity_trust] alone. *)
Theorem call_allies_against_planet_spec (encounter : PlanetEncounter) (w : World) :
  (allies (state w) = [] ->
     call_allies_against_planet encounter w
       = Done tt (say "Aucune planète alliée n'est assez proche pour l'aider pour l'instant." w)
     /\ state (final (call_allies_against_planet encounter w)) = state w) /\
  (forall ally others, allies (state w) = ally :: others ->
     call_allies_against_planet encounter w
       = Done tt
           (say (ally +:+ " jaillit et détourne l'orbite de " +:+ name encounter
                   +:+ ", dissipant les ombres qu'elle projetait.")
              (set_state
                 (mkGameState (energy (state w)) (skills (state w)) others
                    (Z.max 0 (negative_influence (state w) - 1))
                    (Z.min (entity_presence (state w) + 1) 4)
                    (entity_trust (state w)) (rest_count (state w)))
                 w))).
Proof.
  unfold call_allies_against_planet, bind, look, gets. split.
  - intros ->. split; reflexivity.
  - intros ally others ->. reflexivity.
Qed.

Lemma call_allies_against_planet_spec_witness :
  let e := mkPlanetEncounter "Tourmente Obscure" "epuisante" "" 3 3 in
  state (final (call_allies_against_planet e
                  (mkWorld (mkGameState (mkEnergyPool 4 12) [] [] 2 1 0 0) [] [])))
    = mkGameState (mkEnergyPool 4 12) [] [] 2 1 0 0 /\
  state (final (call_allies_against_planet e
                  (mkWorld (mkGameState (mkEnergyPool 4 12) [] ["Minou"; "Compas"] 0 4 1 0) [] [])))
    = mkGameState (mkEnergyPool 4 12) [] ["Compas"] 0 4 1 0.
Proof.
  intros e. split.
  - pose proof (call_allies_against_planet_spec e
      (mkWorld (mkGameState (mkEnergyPool 4 12) [] [] 2 1 0 0) [] [])) as (Hnone & _).
    apply Hnone. reflexivity.
  - pose proof (call_allies_against_planet_spec e
      (mkWorld (mkGameState (mkEnergyPool 4 12) [] ["Minou"; "Compas"] 0 4 1 0) [] []))
      as (_ & Hsome).
    rewrite (Hsome "Minou" ["Compas"] eq_refl). reflexivity.
Defined.

(** C10. Consulting the wise entity touches [entity_trust] only: with
    [entity_presence > 0] it adds exactly 1 to [entity_trust] and prints
    the guidance; with [entity_presence <= 0] it prints one message and
    changes nothing.  Energy, skills, allies, [negative_influence],
    [entity_presence] and [rest_count] are the same afterwards, so
    consulting does not use up [entity_presence]. *)
Theorem consult_wise_entity_spec (encounter : option PlanetEncounter) (w : World) :
  (entity_presence (state w) > 0 ->
     exists spoken,
       consult_wise_entity encounter w
         = Done tt (mkWorld (set_entity_trust (entity_trust (state w) + 1) (state w))
                      (stdin w) (stdout w ++ spoken))) /\
  (entity_presence (state w) <= 0 ->
     consult_wise_entity encounter w
       = Done tt (say "SwimmigStar appelle, mais la voix de l'entité se perd dans le brouillard des mauvaises influences." w)) /\
  (let s' := state (final (consult_wise_entity encounter w)) in
   energy s' = energy (state w) /\ skills s' = skills (state w) /\
   allies s' = allies (state w) /\
   negative_influence s' = negative_influence (state w) /\
   entity_presence s' = entity_presence (state w) /\
   rest_count s' = rest_count (state w)).
Proof.
  assert (Hpos : entity_presence (state w) > 0 ->
    exists spoken,
      consult_wise_entity encounter w
        = Done tt (mkWorld (set_entity_trust (entity_trust (state w) + 1) (state w))
                     (stdin w) (stdout w ++ spoken))).
  { intros Hp. unfold consult_wise_entity, bind at 1, look at 1, gets.
    destruct (Z.leb_spec (entity_presence (state w)) 0); [lia |].
    unfold bind, update, modify, look, gets, print_wrapped, emit.
    cbn [state stdin stdout set_state set_stdout negative_influence set_entity_trust].
    destruct encounter as [e |]; [destruct (is_beneficial e) |];
      destruct (negative_influence (state w) >? 1);
      cbn [for_each app bind print_wrapped emit modify state stdin stdout
           set_state set_stdout ret];
      unfold bind, print_wrapped, emit, modify, ret;
      cbn [state stdin stdout set_state set_stdout];
      rewrite <- ?app_assoc; eexists; reflexivity. }
  assert (Hnone : entity_presence (state w) <= 0 ->
    consult_wise_entity encounter w
      = Done tt (say "SwimmigStar appelle, mais la voix de l'entité se perd dans le brouillard des mauvaises influences." w)).
  { intros Hp. unfold consult_wise_entity, bind at 1, look at 1, gets.
    destruct (Z.leb_spec (entity_presence (state w)) 0); [reflexivity | lia]. }
  split; [exact Hpos | split; [exact Hnone |]].
  destruct (Z.le_gt_cases (entity_presence (state w)) 0) as [Hp | Hp].
  - rewrite (Hnone Hp). cbn. repeat split; reflexivity.
  - destruct Hpos as [spoken ->]; [lia |]. cbn. repeat split; reflexivity.
Qed.

Lemma consult_wise_entity_spec_witness :
  state (final (consult_wise_entity None
                  (mkWorld (mkGameState (mkEnergyPool 4 12) [] ["Minou"] 2 0 1 0) [] [])))
    = mkGameState (mkEnergyPool 4 12) [] ["Minou"] 2 0 1 0 /\
  exists spoken,
    consult_wise_entity None (mkWorld initial_state [] [])
      = Done tt (mkWorld (mkGameState (mkEnergyPool 10 12) [] [] 0 3 1 0) [] spoken).
Proof.
  split.
  - pose proof (consult_wise_entity_spec None
      (mkWorld (mkGameState (mkEnergyPool 4 12) [] ["Minou"] 2 0 1 0) [] []))
      as (_ & Hnone & _).
    rewrite Hnone; [reflexivity | cbn; lia].
  - pose proof (consult_wise_entity_spec None (mkWorld initial_state [] []))
      as (Hpos & _).
    destruct Hpos as [spoken E]; [cbn; lia |].
    exists spoken. exact E.
Defined.

(** C7. Once the menu of [interact_with_planet] has returned, the
    function ends on the trust adjustment: a beneficial encounter (the
    [resolved] flag is always set by then) adds 1 to [entity_trust]; a
    draining encounter with [negative_influence > 0] takes 1 off, not below
    -3; otherwise [entity_trust] is left as it is.  Nothing else changes. *)
Theorem adjust_trust_spec {text : TextOps}
    (encounter : PlanetEncounter) (resolved : bool) (w : World) :
  (is_beneficial encounter = true ->
     adjust_trust encounter resolved w
       = Done tt (set_state (set_entity_trust (entity_trust (state w) + 1) (state w)) w)) /\
  (is_beneficial encounter = false -> negative_influence (state w) > 0 ->
     adjust_trust encounter resolved w
       = Done tt (set_state
                    (set_entity_trust (Z.max (entity_trust (state w) - 1) (-3)) (state w))
                    w)) /\
  (is_beneficial encounter = false -> negative_influence (state w) <= 0 ->
     adjust_trust encounter resolved w = Done tt w) /\
  (forall w0,
     (print "" >> print_wrapped (description encounter) >> planet_menu encounter) w0
       = Done resolved w ->
     interact_with_planet encounter w0 = adjust_trust encounter resolved w).
Proof.
  unfold adjust_trust, bind at 1 2 3, look, gets. repeat split.
  - intros ->. destruct resolved; reflexivity.
  - intros -> Hn.
    destruct (Z.gtb_spec (negative_influence (state w)) 0); [| lia].
    destruct resolved; reflexivity.
  - intros -> Hn.
    destruct (Z.gtb_spec (negative_influence (state w)) 0); [lia |].
    destruct resolved; reflexivity.
  - intros w0 E. unfold interact_with_planet.
    unfold bind in E |- *.
    destruct (print "" w0) as [[] w1 | e w1]; [| discriminate].
    destruct (print_wrapped (description encounter) w1) as [[] w2 | e w2];
      [| discriminate].
    rewrite E. reflexivity.
Qed.

Lemma adjust_trust_spec_witness :
  let good := mkPlanetEncounter "Compas Cristallin" "benefique" "" 3 3 in
  let bad := mkPlanetEncounter "Tourmente Obscure" "epuisante" "" 3 3 in
  let at_trust n t := mkWorld (mkGameState (mkEnergyPool 4 12) [] [] n 2 t 0) [] [] in
  adjust_trust good true (at_trust 0 1) = Done tt (at_trust 0 2) /\
  adjust_trust bad true (at_trust 1 (-3)) = Done tt (at_trust 1 (-3)) /\
  adjust_trust bad true (at_trust 0 1) = Done tt (at_trust 0 1).
Proof.
  intros good bad at_trust. split; [| split].
  - pose proof (adjust_trust_spec (text := ascii_text) good true (at_trust 0 1))
      as (H & _).
    rewrite H; reflexivity.
  - pose proof (adjust_trust_spec (text := ascii_text) bad true (at_trust 1 (-3)))
      as (_ & H & _).
    rewrite H; [reflexivity | reflexivity | reflexivity].
  - pose proof (adjust_trust_spec (text := ascii_text) bad true (at_trust 0 1))
      as (_ & _ & H & _).
    rewrite H; [reflexivity | reflexivity | cbn; lia].
Defined.

Lemma prompt_choice_selects {text : TextOps} {A} question (choices : list (Choice A))
    w line more value label handler :
  stdin w = line :: more -> selects line value -> 1 <= value ->
  choices !! Z.to_nat (value - 1) = Some (label, handler) ->
  prompt_choice question choices w
    = handler (set_stdin more (asked question choices w)).
Proof.
  intros Hin (Hq & Hd & Hv) Hlo Hat. unfold prompt_choice.
  rewrite Hin, prompt_choice_on_eq. cbv zeta. rewrite Hq, Hd, Hv. cbn [negb].
  assert (Hlt : (Z.to_nat (value - 1) < length choices)%nat)
    by exact (lookup_lt_Some _ _ _ Hat).
  destruct (Z.leb_spec 1 value); [| lia].
  destruct (Z.leb_spec value (Z.of_nat (length choices))); [| lia].
  cbn [andb negb]. rewrite Hat. reflexivity.
Qed.

(** C8. At a choice prompt, a line that is [quit] or [exit] once stripped
    and lowercased ends the program with the farewell message: the menu
    has been shown, the line is taken, [SystemExit] is raised, and no
    handler has run (the state is untouched, whatever the handlers are).
    Reaching the end of input does the same, so a prompt at end of input
    and a prompt reading a last line [quit] stop in the same world. *)
Theorem quit_or_end_of_input_ends_program {text : TextOps} {A}
    (question : string) (choices : list (Choice A)) (w : World) :
  (forall line more, stdin w = line :: more ->
     lower (strip line) = "quit" \/ lower (strip line) = "exit" ->
     prompt_choice question choices w
       = Halt SystemExit
           (say farewell_message (set_stdin more (asked question choices w)))) /\
  (stdin w = [] ->
     prompt_choice question choices w
       = Halt SystemExit (say farewell_message (asked question choices w))) /\
  (forall line,
     lower (strip line) = "quit" \/ lower (strip line) = "exit" ->
     prompt_choice question choices (set_stdin [line] w)
       = prompt_choice question choices (set_stdin [] w)) /\
  (forall line more, stdin w = line :: more ->
     lower (strip line) = "quit" \/ lower (strip line) = "exit" ->
     state (final (prompt_choice question choices w)) = state w).
Proof.
  assert (Hquit : forall line,
    lower (strip line) = "quit" \/ lower (strip line) = "exit" ->
    quit_keyword (lower (strip line)) = true).
  { intros line [-> | ->]; reflexivity. }
  assert (Hline : forall w0 line more, stdin w0 = line :: more ->
    lower (strip line) = "quit" \/ lower (strip line) = "exit" ->
    prompt_choice question choices w0
      = Halt SystemExit
          (say farewell_message (set_stdin more (asked question choices w0)))).
  { intros w0 line more Hin Hk. unfold prompt_choice.
    rewrite Hin, prompt_choice_on_eq. cbv zeta. rewrite (Hquit line Hk).
    reflexivity. }
  repeat split.
  - exact (Hline w).
  - intros Hin. unfold prompt_choice. rewrite Hin, prompt_choice_on_eq. reflexivity.
  - intros line Hk. rewrite (Hline (set_stdin [line] w) line [] eq_refl Hk).
    unfold prompt_choice. cbn [stdin set_stdin]. rewrite prompt_choice_on_eq.
    reflexivity.
  - intros line more Hin Hk. rewrite (Hline w line more Hin Hk). reflexivity.
Qed.

Lemma quit_or_end_of_input_ends_program_witness :
  let menu : list (Choice unit) :=
    [("Se reposer", rest None); ("Continuer", ret tt)] in
  let said :=
    [Wrapped "Que faire ?"; Line "  1. Se reposer"; Line "  2. Continuer";
     Prompt "> "; Wrapped farewell_message] in
  prompt_choice (text := ascii_text) "Que faire ?" menu
      (mkWorld initial_state ["  QuIt "; "1"] [])
    = Halt SystemExit (mkWorld initial_state ["1"] said) /\
  prompt_choice (text := ascii_text) "Que faire ?" menu
      (mkWorld initial_state ["EXIT"] [])
    = prompt_choice (text := ascii_text) "Que faire ?" menu
        (mkWorld initial_state [] []).
Proof.
  intros menu said. split.
  - pose proof (quit_or_end_of_input_ends_program (text := ascii_text)
                  "Que faire ?" menu (mkWorld initial_state ["  QuIt "; "1"] []))
      as (H & _).
    rewrite (H "  QuIt " ["1"] eq_refl); [reflexivity | left; reflexivity].
  - pose proof (quit_or_end_of_input_ends_program (text := ascii_text)
                  "Que faire ?" menu (mkWorld initial_state [] []))
      as (_ & _ & H & _).
    apply (H "EXIT"). right. reflexivity.
Defined.

Lemma check_energy_depleted w :
  current (energy (state w)) <= 0 ->
  check_energy w
    = Halt SystemExit (set_stdout (stdout w ++ [Line ""; Wrapped ending_message]) w).
Proof.
  intros H. unfold check_energy, bind at 1, look, gets, is_depleted.
  destruct (Z.leb_spec (current (energy (state w))) 0); [| lia].
  unfold bind, print, print_wrapped, emit, modify, raise, set_stdout.
  cbn [state stdin stdout]. rewrite <- app_assoc. reflexivity.
Qed.

Lemma check_energy_alive w :
  0 < current (energy (state w)) -> check_energy w = Done tt w.
Proof.
  intros H. unfold check_energy, bind at 1, look, gets, is_depleted.
  destruct (Z.leb_spec (current (energy (state w))) 0); [lia | reflexivity].
Qed.

(** C5. Approaching a draining encounter whose penalty is above the
    current energy (penalty 3 with energy 2, say): [spend] fails and leaves
    [current = 0], [check_energy] prints the ending and raises
    [SystemExit], so whatever was to follow is not run; nothing is read
    and the resist / ally / rest menu is not shown; [negative_influence]
    and [entity_presence] are as before. *)
Theorem draining_approach_ends_run {text : TextOps}
    (encounter : PlanetEncounter) (resolved : bool) (w : World) :
  is_beneficial encounter = false ->
  0 <= penalty encounter ->
  current (energy (state w)) < penalty encounter ->
  let spent := set_energy (mkEnergyPool 0 (maximum (energy (state w)))) (state w) in
  let last_words := [Wrapped overreach_message; Line ""; Wrapped ending_message] in
  approach encounter resolved w
    = Halt SystemExit (mkWorld spent (stdin w) (stdout w ++ last_words)) /\
  (forall B (rest_of_run : bool -> M B),
     bind (approach encounter resolved) rest_of_run w
       = Halt SystemExit (mkWorld spent (stdin w) (stdout w ++ last_words))) /\
  (forall line more, stdin w = line :: more -> selects line 1 ->
     forall rest_of_run : M unit,
       (interact_with_planet encounter >> rest_of_run) w
         = Halt SystemExit
             (mkWorld spent more
                (stdout w ++
                 [Line ""; Wrapped (description encounter);
                  Wrapped "Quelle approche adopter ?";
                  Line "  1. S'approcher"; Line "  2. Garder ses distances";
                  Line "  3. Demander conseil à l'entité"; Line "  4. Se reposer";
                  Prompt "> "] ++ last_words))) /\
  current (energy spent) = 0 /\
  negative_influence spent = negative_influence (state w) /\
  entity_presence spent = entity_presence (state w).
Proof.
  intros Hbad Hpen Hlow spent last_words.
  assert (Happroach : forall r w0, state w0 = state w ->
    approach encounter r w0
      = Halt SystemExit (mkWorld spent (stdin w0) (stdout w0 ++ last_words))).
  { intros r w0 Hst. unfold approach. rewrite Hbad.
    unfold bind at 1, look at 1, gets, can_spend. rewrite Hst.
    destruct (Z.geb_spec (current (energy (state w))) (penalty encounter)); [lia |].
    cbn [negb]. unfold print_wrapped, emit.
    erewrite bind_done by reflexivity.
    pose proof (spend_short (energy (state w)) (penalty encounter)) as Hfail.
    erewrite bind_done.
    2:{ unfold on_energy. cbn [state set_stdout]. rewrite Hst, Hfail by lia.
        reflexivity. }
    apply bind_halt.
    rewrite check_energy_depleted by (cbn; lia).
    unfold set_stdout, set_state, spent, last_words; cbn [state stdin stdout].
    rewrite <- app_assoc. reflexivity. }
  split; [apply Happroach; reflexivity |].
  split; [intros B k; apply bind_halt, Happroach; reflexivity |].
  split; [| cbn; auto].
  intros line more Hin Hsel k.
  apply bind_halt. unfold interact_with_planet, print, print_wrapped, emit.
  erewrite bind_done by reflexivity. erewrite bind_done by reflexivity.
  apply bind_halt. unfold planet_menu.
  erewrite prompt_choice_selects; [| exact Hin | exact Hsel | lia | reflexivity].
  rewrite Happroach by reflexivity.
  unfold asked, set_stdin, set_stdout; cbn [state stdin stdout].
  change (pretty 1) with "1". cbn [menu_lines].
  f_equal. f_equal. rewrite <- !app_assoc. reflexivity.
Qed.

Lemma draining_approach_ends_run_witness :
  let storm := mkPlanetEncounter "Tourmente Obscure" "epuisante" "Un vortex." 3 3 in
  let tired e := mkGameState (mkEnergyPool e 12) [] ["Minou"] 1 2 0 0 in
  approach (text := ascii_text) storm false (mkWorld (tired 2) ["1"; "2"] [])
    = Halt SystemExit
        (mkWorld (tired 0) ["1"; "2"]
           [Wrapped overreach_message; Line ""; Wrapped ending_message]) /\
  (interact_with_planet (text := ascii_text) storm >> check_energy)
      (mkWorld (tired 2) ["1"; "2"] [])
    = Halt SystemExit
        (mkWorld (tired 0) ["2"]
           [Line ""; Wrapped "Un vortex."; Wrapped "Quelle approche adopter ?";
            Line "  1. S'approcher"; Line "  2. Garder ses distances";
            Line "  3. Demander conseil à l'entité"; Line "  4. Se reposer";
            Prompt "> ";
            Wrapped overreach_message; Line ""; Wrapped ending_message]).
Proof.
  intros storm tired.
  assert (Hbad : is_beneficial storm = false) by reflexivity.
  assert (Hpen : 0 <= penalty storm) by (cbn; lia).
  assert (Hlow : current (energy (state (mkWorld (tired 2) ["1"; "2"] [])))
                 < penalty storm) by (cbn; lia).
  pose proof (draining_approach_ends_run (text := ascii_text) storm false
                (mkWorld (tired 2) ["1"; "2"] []) Hbad Hpen Hlow)
    as (Happroach & _ & Hmenu & _).
  split.
  - exact Happroach.
  - apply (Hmenu "1" ["2"] eq_refl). repeat split; reflexivity.
Defined.

(** A whole run that ends this way: the three skills, a first draining
    planet resisted, then the last planet approached with 1 energy left. *)
Example overreach_ends_main :
  let run := main (text := ascii_text)
               ["1"; "2"; "3"; "4"; "Minou"; "2"; "1"; "1"; "2"; "1"; "3"; "3"] in
  raised run = Some SystemExit /\
  current (energy (state (final run))) = 0 /\
  stdin (final run) = ["3"; "3"] /\
  last (stdout (final run)) = Some (Wrapped ending_message).
Proof. vm_compute. repeat split; reflexivity. Qed.

(** ** Learning a skill *)

Lemma catalog_entry i key name description cost :
  skill_catalog !! i = Some (key, (name, description, cost)) ->
  catalog_get key skill_catalog = Some (name, description, cost) /\ 0 <= cost.
Proof.
  destruct i as [| [| [| i]]]; cbn; intros [= <- <- <- <-];
    (split; [reflexivity | lia]).
Qed.

Lemma skill_options_entry i key name description cost acquired :
  skill_catalog !! i = Some (key, (name, description, cost)) ->
  skill_options acquired !! i
    = Some ("Investir dans '" +:+ name +:+ "' (coût " +:+ pretty cost +:+ ")",
            let* a := learn key acquired in ret (a, false)).
Proof.
  destruct i as [| [| [| i]]]; cbn; intros [= <- <- <- <-]; reflexivity.
Qed.

Lemma learn_fresh key name description cost acquired w :
  catalog_get key skill_catalog = Some (name, description, cost) ->
  key ∉ acquired -> 0 <= cost -> cost < current (energy (state w)) ->
  learn key acquired w
    = Done (acquired ∪ {[ key ]})
        (mkWorld (learnt name cost (state w)) (stdin w)
           (stdout w ++
            [Wrapped ("SwimmigStar nourrit la branche '" +:+ name
                      +:+ "' et ressent la promesse suivante :");
             Wrapped description;
             Wrapped ("Énergie restante : " +:+ gauge (learnt name cost (state w))
                      +:+ ".")])).
Proof.
  intros Hcat Hnew Hcost Hrich. unfold learn.
  rewrite bool_decide_false by exact Hnew. rewrite Hcat.
  unfold bind at 1, look at 1, gets, can_spend.
  destruct (Z.geb_spec (current (energy (state w))) cost); [| lia].
  cbn [negb].
  pose proof (spend_paid (energy (state w)) cost) as Hok.
  erewrite bind_done.
  2:{ unfold on_energy. rewrite Hok by lia. reflexivity. }
  unfold update, print_wrapped, emit, look.
  do 3 (erewrite bind_done by reflexivity).
  erewrite bind_done by reflexivity.
  erewrite bind_done by reflexivity.
  erewrite bind_done by (apply check_energy_alive; cbn; lia).
  unfold ret, learnt, set_state, set_stdout; cbn [state stdin stdout].
  rewrite <- !app_assoc. reflexivity.
Qed.

Lemma learn_again key acquired w :
  key ∈ acquired ->
  learn key acquired w = Done acquired (say already_acquired_message w).
Proof.
  intros Hin. unfold learn. rewrite bool_decide_true by exact Hin. reflexivity.
Qed.

(** C6. Choosing the same skill twice (for instance entry 1, Éclat de
    Solidarité, cost 2) with more energy than its cost: the first call of
    [learn] pays the cost once and appends the name to [skills] once; the
    second call only prints that the branch already shines, with the same
    energy and the same [skills].  In the skill-tree loop, two lines
    choosing that entry lead to that state with the skill marked as
    acquired. *)
Theorem learn_twice {text : TextOps} (i : nat) (key name description : string)
    (cost : Z) (acquired : gset string) (w : World) :
  skill_catalog !! i = Some (key, (name, description, cost)) ->
  key ∉ acquired ->
  cost < current (energy (state w)) ->
  exists w1,
    learn key acquired w = Done (acquired ∪ {[ key ]}) w1 /\
    state w1 = learnt name cost (state w) /\
    learn key (acquired ∪ {[ key ]}) w1
      = Done (acquired ∪ {[ key ]}) (say already_acquired_message w1) /\
    state (final (learn key (acquired ∪ {[ key ]}) w1)) = state w1 /\
    (forall line1 line2 more budget,
       stdin w = line1 :: line2 :: more ->
       selects line1 (Z.of_nat i + 1) -> selects line2 (Z.of_nat i + 1) ->
       exists w2,
         skill_tree_loop (S (S budget)) acquired w
           = skill_tree_loop budget (acquired ∪ {[ key ]}) w2 /\
         state w2 = learnt name cost (state w) /\
         stdin w2 = more).
Proof.
  intros Hentry Hnew Hrich.
  destruct (catalog_entry _ _ _ _ _ Hentry) as (Hcat & Hcost).
  assert (Hin : key ∈ acquired ∪ {[ key ]}) by set_solver.
  eexists. split; [apply (learn_fresh key name description cost); assumption |].
  split; [reflexivity |].
  split; [apply learn_again; exact Hin |].
  split; [rewrite learn_again by exact Hin; reflexivity |].
  intros line1 line2 more budget Hstdin Hsel1 Hsel2.
  set (question := "Quelle branche de lumière activer ?").
  set (w1 := set_stdin (line2 :: more) (asked question (skill_options acquired) w)).
  assert (E1 : learn key acquired w1 = Done (acquired ∪ {[ key ]}) _)
    by (apply (learn_fresh key name description cost); assumption).
  set (w1' := mkWorld _ _ _) in E1.
  set (w2 := set_stdin more (asked question (skill_options (acquired ∪ {[ key ]})) w1')).
  exists (say already_acquired_message w2).
  split; [| split; reflexivity].
  assert (Hstep : forall budget' acquired0 w0 line rest' a w',
    stdin w0 = line :: rest' -> selects line (Z.of_nat i + 1) ->
    learn key acquired0 (set_stdin rest' (asked question (skill_options acquired0) w0))
      = Done a w' ->
    0 < current (energy (state w')) ->
    skill_tree_loop (S budget') acquired0 w0 = skill_tree_loop budget' a w').
  { intros budget' acquired0 w0 line rest' a w' Hw0 Hsel Hlearn Halive.
    cbn [skill_tree_loop]. fold question.
    erewrite bind_done.
    2:{ erewrite prompt_choice_selects;
          [| exact Hw0 | exact Hsel | lia |].
        2:{ replace (Z.to_nat (Z.of_nat i + 1 - 1)) with i by lia.
            apply (skill_options_entry i key name description cost), Hentry. }
        erewrite bind_done by exact Hlearn. reflexivity. }
    cbn [fst snd].
    erewrite bind_done by (apply check_energy_alive; exact Halive).
    reflexivity. }
  erewrite Hstep; [| exact Hstdin | exact Hsel1 | exact E1 | cbn; lia].
  erewrite Hstep; [reflexivity | reflexivity | exact Hsel2 | | cbn; lia].
  apply learn_again. exact Hin.
Qed.

Lemma learn_twice_witness :
  let w := mkWorld initial_state [] [] in
  exists w1,
    learn "solidarite" ∅ w = Done (∅ ∪ {[ "solidarite" ]}) w1 /\
    state w1 = mkGameState (mkEnergyPool 8 12) ["Éclat de Solidarité"] [] 0 3 0 0 /\
    state (final (learn "solidarite" (∅ ∪ {[ "solidarite" ]}) w1)) = state w1.
Proof.
  intros w.
  assert (Hentry : skill_catalog !! 0%nat
            = Some ("solidarite",
                    ("Éclat de Solidarité",
                     "Projette un fil lumineux vers les alliées potentielles, facilitant les rencontres à venir.",
                     2))) by reflexivity.
  assert (Hnew : "solidarite" ∉ (∅ : gset string)) by apply not_elem_of_empty.
  assert (Hrich : 2 < current (energy (state w))) by (cbn; lia).
  destruct (learn_twice (text := ascii_text) 0 _ _ _ _ ∅ w Hentry Hnew Hrich)
    as (w1 & E1 & Hstate & _ & Hsame & _).
  exists w1. split; [exact E1 | split; [exact Hstate | exact Hsame]].
Defined.

(** The same on the terminal: entry 1 twice, then entry 4 to go on. *)
Example skill_chosen_twice :
  let o := run_skill_tree (text := ascii_text)
             (mkWorld initial_state ["1"; "1"; "4"] []) in
  raised o = None /\
  state (final o) = mkGameState (mkEnergyPool 8 12) ["Éclat de Solidarité"] [] 0 3 0 0 /\
  count_occ string_dec (skills (state (final o))) "Éclat de Solidarité" = 1%nat /\
  In (Wrapped already_acquired_message) (stdout (final o)).
Proof. vm_compute. repeat split; try reflexivity. tauto. Qed.

(** ** The loop budget is never the reason a run stops *)

Lemma run_skill_tree_within_budget {text : TextOps} (w : World) :
  raised (run_skill_tree w) <> Some LoopBudget.
Proof. apply (sound_run_skill_tree w). Qed.

Lemma main_within_budget {text : TextOps} (lines : list string) :
  raised (main lines) <> Some LoopBudget.
Proof. apply (sound_play (mkWorld initial_state lines [])). Qed.

(** ** Reasoning over every input *)

Lemma ensures_weaken {A} (m : M A) s (Q Q' : A -> GameState -> Prop)
    (E E' : Stop -> GameState -> Prop) :
  ensures m s Q E ->
  (forall a s', Q a s' -> Q' a s') -> (forall e s', E e s' -> E' e s') ->
  ensures m s Q' E'.
Proof.
  intros H HQ HE lines out. specialize (H lines out).
  destruct (m _); auto.
Qed.

Lemma ensures_ret {A} (a : A) s Q E : Q a s -> ensures (ret a) s Q E.
Proof. intros H lines out. exact H. Qed.

Lemma ensures_raise {A} e s (Q : A -> GameState -> Prop) E :
  E e s -> ensures (raise e) s Q E.
Proof. intros H lines out. exact H. Qed.

Lemma ensures_bind {A B} (m : M A) (k : A -> M B) s Q E :
  ensures m s (fun a s' => ensures (k a) s' Q E) E ->
  ensures (bind m k) s Q E.
Proof.
  intros H lines out. unfold bind. specialize (H lines out).
  destruct (m _) as [a [s' lines' out'] | e w']; [apply H | exact H].
Qed.

Lemma ensures_emit o s Q E : Q tt s -> ensures (emit o) s Q E.
Proof. intros H lines out. exact H. Qed.

Lemma ensures_print_wrapped msg s Q E : Q tt s -> ensures (print_wrapped msg) s Q E.
Proof. apply ensures_emit. Qed.

Lemma ensures_print line s Q E : Q tt s -> ensures (print line) s Q E.
Proof. apply ensures_emit. Qed.

Lemma ensures_look {A} (f : GameState -> A) s Q E :
  Q (f s) s -> ensures (look f) s Q E.
Proof. intros H lines out. exact H. Qed.

Lemma ensures_update f s Q E : Q tt (f s) -> ensures (update f) s Q E.
Proof. intros H lines out. exact H. Qed.

Lemma ensures_spend amount s (Q : bool -> GameState -> Prop) E :
  0 <= amount ->
  (amount <= current (energy s) -> Q true (with_current (current (energy s) - amount) s)) ->
  (current (energy s) < amount -> Q false (with_current 0 s)) ->
  ensures (on_energy (spend amount)) s Q E.
Proof.
  intros H0 Hok Hshort lines out. unfold on_energy. cbn [state].
  destruct (Z.le_gt_cases amount (current (energy s))) as [Hle | Hgt].
  - rewrite spend_paid by assumption. apply Hok, Hle.
  - rewrite spend_short by lia. apply Hshort. lia.
Qed.

Lemma ensures_restore amount s (Q : unit -> GameState -> Prop) E :
  0 <= amount -> Q tt (restored amount s) ->
  ensures (on_energy (restore amount)) s Q E.
Proof.
  intros H0 H lines out. unfold on_energy, restore. cbn [state].
  destruct (Z.ltb_spec amount 0); [lia |]. exact H.
Qed.

Lemma ensures_check_energy s (Q : unit -> GameState -> Prop) E :
  (current (energy s) <= 0 -> E SystemExit s) ->
  (0 < current (energy s) -> Q tt s) ->
  ensures check_energy s Q E.
Proof.
  intros Hout Hin lines out.
  destruct (Z.le_gt_cases (current (energy s)) 0) as [Hle | Hgt].
  - rewrite check_energy_depleted by exact Hle. apply Hout, Hle.
  - rewrite check_energy_alive by (cbn; lia). apply Hin. lia.
Qed.

Lemma rest_eq reason w :
  exists said,
    rest reason w = Done tt (mkWorld (rested (state w)) (stdin w) (stdout w ++ said)).
Proof.
  unfold rest.
  assert (Hreason : exists said,
    (match reason with
     | Some r => if nonempty r then print_wrapped r else ret tt
     | None => ret tt
     end)
      (set_state (set_rest_count (rest_count (state w) + 1) (state w)) w)
    = Done tt (mkWorld (set_rest_count (rest_count (state w) + 1) (state w))
                 (stdin w) (stdout w ++ said))).
  { destruct reason as [r |]; [destruct (nonempty r) |].
    - eexists. reflexivity.
    - exists []. unfold ret, set_state. rewrite app_nil_r. reflexivity.
    - exists []. unfold ret, set_state. rewrite app_nil_r. reflexivity. }
  destruct Hreason as [said1 E1].
  erewrite bind_done by reflexivity.
  erewrite bind_done by exact E1.
  unfold print_wrapped, emit, look, update.
  erewrite bind_done by reflexivity.
  erewrite bind_done by reflexivity.
  erewrite bind_done.
  2:{ unfold on_energy, restore. cbn [Z.ltb Z.compare]. reflexivity. }
  erewrite bind_done by reflexivity.
  erewrite bind_done by reflexivity.
  cbn [state stdin stdout set_state set_stdout set_energy set_rest_count energy
       current maximum modify].
  match goal with |- context [if ?b then _ else _] => destruct b end;
    erewrite bind_done by reflexivity;
    unfold modify, rested; cbn; rewrite <- !app_assoc; eexists; reflexivity.
Qed.

Lemma ensures_rest reason s (Q : unit -> GameState -> Prop) E :
  Q tt (rested s) -> ensures (rest reason) s Q E.
Proof.
  intros H lines out.
  destruct (rest_eq reason (mkWorld s lines out)) as [said ->]. exact H.
Qed.

Lemma ensures_input prompt s (Q : string -> GameState -> Prop) E :
  E EOFError s -> (forall line, Q line s) -> ensures (input prompt) s Q E.
Proof.
  intros He Hq lines out. unfold input, emit.
  erewrite bind_done by reflexivity.
  destruct lines as [| line more]; cbn; auto.
Qed.

Lemma ensures_for_each {A} (items : list A) (body : A -> M unit)
    (I : GameState -> Prop) E s :
  (forall x s', In x items -> I s' -> ensures (body x) s' (fun _ => I) E) ->
  I s -> ensures (for_each items body) s (fun _ => I) E.
Proof.
  revert s. induction items as [| x more IH]; intros s Hb Hs; cbn [for_each].
  - apply ensures_ret, Hs.
  - apply ensures_bind.
    eapply ensures_weaken; [apply Hb; [left; reflexivity | exact Hs] | | auto].
    intros [] s' Hs'. apply IH; [| exact Hs'].
    intros y s'' Hy. apply Hb. right. exact Hy.
Qed.

(** ** What a prompt does with its lines *)

Lemma prompt_choice_on_cases {text : TextOps} {A} question (choices : list (Choice A)) :
  forall lines w,
    let o := prompt_choice_on question choices lines w in
    (exists label handler w0,
       (label, handler) ∈ choices /\ state w0 = state w /\ o = handler w0) \/
    (exists w', state w' = state w /\
       (o = Halt SystemExit w' \/
        o = Halt (ValueError "invalid literal for int()") w' /\ int_can_fail)).
Proof.
  induction lines as [| line more IH]; intros w o; subst o;
    rewrite prompt_choice_on_eq.
  - right. eexists. split; [| left; reflexivity]. reflexivity.
  - cbv zeta.
    assert (Hrec : forall msg w1, state w1 = state w ->
      let o := prompt_choice_on question choices more (say msg w1) in
      (exists label handler w0,
         (label, handler) ∈ choices /\ state w0 = state w /\ o = handler w0) \/
      (exists w', state w' = state w /\
         (o = Halt SystemExit w' \/
          o = Halt (ValueError "invalid literal for int()") w' /\ int_can_fail))).
    { intros msg w1 Hw1.
      destruct (IH (say msg w1)) as [(l & h & w0 & Hin & Hst & Ho) | (w' & Hst & Ho)].
      - left. exists l, h, w0. split; [exact Hin | split; [| exact Ho]].
        rewrite Hst. exact Hw1.
      - right. exists w'. split; [| exact Ho]. rewrite Hst. exact Hw1. }
    destruct (quit_keyword (lower (strip line))).
    { right. eexists. split; [| left; reflexivity]. reflexivity. }
    destruct (isdigit (strip line)) eqn:Hdigit; cbn [negb];
      [| apply Hrec; reflexivity].
    destruct (int (strip line)) as [value |] eqn:Hint.
    2:{ right. eexists. split; [| right; split; [reflexivity |]]; [reflexivity |].
        exists (strip line). split; assumption. }
    destruct (negb _) eqn:Hrange; [apply Hrec; reflexivity |].
    destruct (choices !! Z.to_nat (value - 1)) as [[label handler] |] eqn:Hat.
    + left. exists label, handler, (set_stdin more (asked question choices w)).
      split; [eapply list_elem_of_lookup_2, Hat | split; reflexivity].
    + exfalso. apply lookup_ge_None in Hat.
      apply negb_false_iff, andb_true_iff in Hrange as [H1 H2].
      apply Z.leb_le in H1, H2.
      assert (Hlen : (length choices <= Z.to_nat (value - 1))%nat) by exact Hat.
      lia.
Qed.

Lemma ensures_prompt_choice {text : TextOps} {A} question (choices : list (Choice A))
    s (Q : A -> GameState -> Prop) E :
  E SystemExit s ->
  (int_can_fail -> E (ValueError "invalid literal for int()") s) ->
  Forall (fun c => ensures c.2 s Q E) choices ->
  ensures (prompt_choice question choices) s Q E.
Proof.
  intros Hquit Hint Hh lines out. unfold prompt_choice. cbn [stdin].
  destruct (prompt_choice_on_cases question choices lines (mkWorld s lines out))
    as [(l & h & [s0 lines0 out0] & Hin & Hst & ->) | (w' & Hst & [-> | [-> Hfail]])];
    cbn in Hst.
  - subst s0. exact (proj1 (Forall_forall _ _) Hh _ Hin lines0 out0).
  - cbn. rewrite Hst. exact Hquit.
  - cbn. rewrite Hst. exact (Hint Hfail).
Qed.

(** X1. [prompt_choice] changes the game state only through a handler.
    Either one handler of the list has run, on the state the prompt was
    entered with, and the prompt ends as that handler does (same value
    returned, or same exception raised).  Or no handler has run, the state
    is untouched, and the exception is [SystemExit] (quit keyword or end of
    input) or the [ValueError] of [int], the latter only if [int] rejects
    some string that [isdigit] accepts. *)
Theorem prompt_choice_runs_one_handler {text : TextOps} {A}
    (question : string) (choices : list (Choice A)) (w : World) :
  (exists label handler w0,
     (label, handler) ∈ choices /\ state w0 = state w /\
     prompt_choice question choices w = handler w0) \/
  (exists w', state w' = state w /\
     (prompt_choice question choices w = Halt SystemExit w' \/
      prompt_choice question choices w
        = Halt (ValueError "invalid literal for int()") w' /\ int_can_fail)).
Proof. apply (prompt_choice_on_cases question choices (stdin w) w). Qed.

(** X2. How [prompt_choice] treats the line it reads when the line is not a
    quit keyword.  A line that reads as the number of an entry runs that
    entry's handler, once, after the menu was shown and the line taken,
    and the prompt ends with the handler.  A line that is not a number, or
    a number outside [1 .. len(choices)], is dropped: the prompt prints
    its validation message and asks again on the lines that follow, with
    the game state as it was and no handler run. *)
Theorem prompt_choice_reads_one_line {text : TextOps} {A}
    (question : string) (choices : list (Choice A)) (w : World)
    (line : string) (more : list string) :
  stdin w = line :: more ->
  quit_keyword (lower (strip line)) = false ->
  let shown := set_stdin more (asked question choices w) in
  (forall value label handler,
     isdigit (strip line) = true -> int (strip line) = Some value ->
     1 <= value -> choices !! Z.to_nat (value - 1) = Some (label, handler) ->
     prompt_choice question choices w = handler shown) /\
  (isdigit (strip line) = false ->
     prompt_choice question choices w
       = prompt_choice question choices
           (say "Entre le numéro correspondant à ton choix." shown)) /\
  (forall value,
     isdigit (strip line) = true -> int (strip line) = Some value ->
     value < 1 \/ Z.of_nat (length choices) < value ->
     prompt_choice question choices w
       = prompt_choice question choices (say "Choix invalide, essaie encore." shown)) /\
  state shown = state w.
Proof.
  intros Hin Hq shown. repeat split.
  - intros value label handler Hd Hv Hlo Hat.
    eapply prompt_choice_selects; eauto. repeat split; assumption.
  - intros Hd. unfold prompt_choice at 1. rewrite Hin, prompt_choice_on_eq.
    cbv zeta. rewrite Hq, Hd. reflexivity.
  - intros value Hd Hv Hout. unfold prompt_choice at 1.
    rewrite Hin, prompt_choice_on_eq. cbv zeta. rewrite Hq, Hd, Hv. cbn [negb].
    replace ((1 <=? value) && (value <=? Z.of_nat (length choices))) with false;
      [reflexivity |].
    symmetry. apply andb_false_iff.
    destruct Hout; [left; apply Z.leb_gt | right; apply Z.leb_gt]; assumption.
Qed.

Lemma prompt_choice_reads_one_line_witness :
  let menu : list (Choice Z) := [("Un", ret 1); ("Deux", ret 2)] in
  let w lines := mkWorld initial_state lines [] in
  prompt_choice (text := ascii_text) "?" menu (w [" 2 "; "1"])
    = Done 2 (set_stdin ["1"] (asked "?" menu (w []))) /\
  prompt_choice (text := ascii_text) "?" menu (w ["deux"; "1"])
    = prompt_choice (text := ascii_text) "?" menu
        (say "Entre le numéro correspondant à ton choix."
           (set_stdin ["1"] (asked "?" menu (w [])))) /\
  prompt_choice (text := ascii_text) "?" menu (w ["3"; "1"])
    = prompt_choice (text := ascii_text) "?" menu
        (say "Choix invalide, essaie encore."
           (set_stdin ["1"] (asked "?" menu (w [])))).
Proof.
  intros menu w. split; [| split].
  - pose proof (prompt_choice_reads_one_line (text := ascii_text) "?" menu
                  (w [" 2 "; "1"]) " 2 " ["1"] eq_refl eq_refl) as (H & _).
    exact (H 2 "Deux" (ret 2) eq_refl eq_refl ltac:(lia) eq_refl).
  - pose proof (prompt_choice_reads_one_line (text := ascii_text) "?" menu
                  (w ["deux"; "1"]) "deux" ["1"] eq_refl eq_refl) as (_ & H & _).
    exact (H eq_refl).
  - pose proof (prompt_choice_reads_one_line (text := ascii_text) "?" menu
                  (w ["3"; "1"]) "3" ["1"] eq_refl eq_refl) as (_ & _ & H & _).
    exact (H 3 eq_refl eq_refl ltac:(right; cbn; lia)).
Defined.

(** Walk through a procedure, one statement at a time, splitting on its
    tests; what is left are facts about states. *)
Ltac split_test b :=
  match b with
  | context [Z.geb ?x ?y] => destruct (Z.geb_spec x y)
  | context [Z.gtb ?x ?y] => destruct (Z.gtb_spec x y)
  | context [Z.leb ?x ?y] => destruct (Z.leb_spec x y)
  | context [Z.ltb ?x ?y] => destruct (Z.ltb_spec x y)
  | context [Z.eqb ?x ?y] => destruct (Z.eqb_spec x y)
  | _ => destruct b eqn:?
  end; cbn [negb andb orb].

Ltac walk_step :=
  unfold can_spend, is_depleted;
  match goal with
  | |- ensures (bind _ _) _ _ _ => apply ensures_bind
  | |- ensures (ret _) _ _ _ => apply ensures_ret
  | |- ensures (raise _) _ _ _ => apply ensures_raise
  | |- ensures (emit _) _ _ _ => apply ensures_emit
  | |- ensures (print_wrapped _) _ _ _ => apply ensures_print_wrapped
  | |- ensures (print _) _ _ _ => apply ensures_print
  | |- ensures (look _) _ _ _ => apply ensures_look
  | |- ensures (update _) _ _ _ => apply ensures_update
  | |- ensures (rest _) _ _ _ => apply ensures_rest
  | |- ensures check_energy _ _ _ => apply ensures_check_energy; intros ?
  | |- ensures (on_energy (spend _)) _ _ _ =>
      apply ensures_spend; [cbn; lia | intros ? | intros ?]
  | |- ensures (on_energy (restore _)) _ _ _ =>
      apply ensures_restore; [cbn; lia |]
  | |- ensures (input _) _ _ _ => apply ensures_input; [| intros ?]
  | |- ensures (if ?b then _ else _) _ _ _ => split_test b
  | |- ensures (match ?x with _ => _ end) _ _ _ => destruct x eqn:?
  end; cbv beta; cbn [fst snd].

Ltac walk := repeat walk_step.

(** Facts about states: unfold the assignments and compare fields. *)
Ltac state_facts :=
  unfold rested, restored, with_current, set_energy, set_skills, set_allies,
    set_negative_influence, set_entity_presence, set_entity_trust,
    set_rest_count in *;
  cbn [energy skills allies negative_influence entity_presence entity_trust
       rest_count current maximum] in *.

(** Close what a walk leaves. *)
Ltac settle :=
  repeat match goal with |- _ /\ _ => split end;
  try reflexivity; try contradiction; state_facts;
  try lia; try (repeat f_equal; lia).

(** ** Resting, resisting, gambling *)

(** X3. [rest] always returns: it counts one more rest, gives back 4
    energy up to the maximum, raises [entity_presence] by one up to 4 and
    touches nothing else, standard input included.  On a pool within its
    bounds it never lowers the energy, and with a positive maximum it
    leaves the pool not depleted, so the energy check that follows a rest
    cannot end the run. *)
Theorem rest_spec (reason : option string) (w : World) :
  (exists said,
     rest reason w
       = Done tt (mkWorld (rested (state w)) (stdin w) (stdout w ++ said))) /\
  (pool_ok (energy (state w)) ->
     current (energy (state w)) <= current (energy (rested (state w))) /\
     pool_ok (energy (rested (state w)))) /\
  (0 <= current (energy (state w)) -> 0 < maximum (energy (state w)) ->
     is_depleted (energy (rested (state w))) = false).
Proof.
  split; [apply rest_eq |]. split.
  - unfold pool_ok. intros H. state_facts. lia.
  - intros H0 Hmax. unfold is_depleted. state_facts.
    apply Z.leb_gt. lia.
Qed.

Lemma rest_spec_witness :
  let s := mkGameState (mkEnergyPool 10 12) [] ["Minou"] 1 3 0 2 in
  let spent := mkGameState (mkEnergyPool 0 12) [] [] 0 0 0 0 in
  (current (energy s) <= current (energy (rested s)) /\
   pool_ok (energy (rested s))) /\
  is_depleted (energy (rested spent)) = false.
Proof.
  intros s spent.
  pose proof (rest_spec None (mkWorld s [] [])) as (_ & Hup & _).
  pose proof (rest_spec None (mkWorld spent [] [])) as (_ & _ & Halive).
  split.
  - apply Hup. unfold pool_ok. cbn. lia.
  - apply Halive; cbn; lia.
Defined.

(** X4. [resist_exhausting_planet] by cases on the energy.  With less
    than 2 (pool within bounds, positive maximum) it only rests:
    [negative_influence] is not lowered.  With exactly 2 it pays, lowers
    [negative_influence], and the run ends on the energy check.  With more
    than 2 it pays 2, lowers [negative_influence] by one but not below 0,
    and returns. *)
Theorem resist_exhausting_planet_spec (s : GameState) :
  (0 <= current (energy s) < 2 -> 0 < maximum (energy s) ->
     ensures resist_exhausting_planet s
       (fun _ s' => s' = rested s) (fun _ _ => False)) /\
  (current (energy s) = 2 ->
     ensures resist_exhausting_planet s
       (fun _ _ => False)
       (fun e s' =>
          e = SystemExit /\
          s' = set_negative_influence (Z.max 0 (negative_influence s - 1))
                 (with_current 0 s))) /\
  (2 < current (energy s) ->
     ensures resist_exhausting_planet s
       (fun _ s' =>
          s' = set_negative_influence (Z.max 0 (negative_influence s - 1))
                 (with_current (current (energy s) - 2) s))
       (fun _ _ => False)).
Proof.
  unfold resist_exhausting_planet. repeat split; intros; walk; settle.
Qed.

Lemma resist_exhausting_planet_spec_witness :
  let at_energy e := mkGameState (mkEnergyPool e 12) [] [] 1 2 0 0 in
  ensures resist_exhausting_planet (at_energy 1)
    (fun _ s' => s' = mkGameState (mkEnergyPool 5 12) [] [] 1 3 0 1)
    (fun _ _ => False) /\
  ensures resist_exhausting_planet (at_energy 2)
    (fun _ _ => False)
    (fun e s' => e = SystemExit /\ s' = mkGameState (mkEnergyPool 0 12) [] [] 0 2 0 0) /\
  ensures resist_exhausting_planet (at_energy 5)
    (fun _ s' => s' = mkGameState (mkEnergyPool 3 12) [] [] 0 2 0 0)
    (fun _ _ => False).
Proof.
  intros at_energy.
  pose proof (resist_exhausting_planet_spec (at_energy 1)) as (Hlow & _).
  pose proof (resist_exhausting_planet_spec (at_energy 2)) as (_ & Hexact & _).
  pose proof (resist_exhausting_planet_spec (at_energy 5)) as (_ & _ & Hrich).
  split; [| split].
  - apply Hlow; cbn; lia.
  - apply Hexact. reflexivity.
  - apply Hrich. cbn. lia.
Defined.

(** X5. [gamble_energy] with non-negative gain and cost.  When the cost is
    affordable ([cost <= current]) it pays the cost, gives the gain back up
    to the maximum, and returns without checking the energy.  When it is
    not, the energy falls to 0 and the run ends. *)
Theorem gamble_energy_spec (gain cost : Z) (s : GameState) :
  0 <= gain -> 0 <= cost ->
  (cost <= current (energy s) ->
     ensures (gamble_energy gain cost) s
       (fun _ s' =>
          s' = with_current
                 (Z.min (maximum (energy s)) (current (energy s) - cost + gain)) s)
       (fun _ _ => False)) /\
  (current (energy s) < cost ->
     ensures (gamble_energy gain cost) s
       (fun _ _ => False)
       (fun e s' => e = SystemExit /\ s' = with_current 0 s)).
Proof.
  intros Hgain Hcost. unfold gamble_energy. split; intros; walk; settle.
Qed.

Lemma gamble_energy_spec_witness :
  let at_energy e := mkGameState (mkEnergyPool e 12) [] [] 0 3 0 0 in
  ensures (gamble_energy 6 5) (at_energy 5)
    (fun _ s' => s' = at_energy 6) (fun _ _ => False) /\
  ensures (gamble_energy 6 5) (at_energy 4)
    (fun _ _ => False) (fun e s' => e = SystemExit /\ s' = at_energy 0).
Proof.
  intros at_energy.
  pose proof (gamble_energy_spec 6 5 (at_energy 5) ltac:(lia) ltac:(lia)) as (Hok & _).
  pose proof (gamble_energy_spec 6 5 (at_energy 4) ltac:(lia) ltac:(lia)) as (_ & Hko).
  split.
  - apply Hok. cbn. lia.
  - apply Hko. cbn. lia.
Defined.

(** ** Naming the cat planet *)

Lemma input_eq prompt w :
  input prompt w =
  match stdin w with
  | [] => Halt EOFError (set_stdout (stdout w ++ [Prompt prompt]) w)
  | line :: more =>
      Done line (set_stdin more (set_stdout (stdout w ++ [Prompt prompt]) w))
  end.
Proof.
  unfold input, emit. erewrite bind_done by reflexivity.
  cbn [stdin set_stdout]. destruct (stdin w); reflexivity.
Qed.

(** X6. [encounter_cat_planet] reads the planet's name with a bare
    [input].  At end of input the [EOFError] is not caught: it escapes with
    the game state untouched.  Otherwise exactly one line is taken, and it
    is never treated as a command: stripped, it is the name of the new
    ally (a [quit] included), or [Ronronia] when nothing is left of it.
    The ally goes to the end of the list, 3 energy comes back up to the
    maximum, and [entity_presence] rises by one up to 4. *)
Theorem encounter_cat_planet_spec {text : TextOps} (w : World) :
  (stdin w = [] ->
     exists said,
       encounter_cat_planet w
         = Halt EOFError (mkWorld (state w) [] (stdout w ++ said))) /\
  (forall line more, stdin w = line :: more ->
     let name := if nonempty (strip line) then strip line else "Ronronia" in
     exists said,
       encounter_cat_planet w
         = Done tt
             (mkWorld
                (mkGameState
                   (mkEnergyPool
                      (Z.min (maximum (energy (state w)))
                         (current (energy (state w)) + 3))
                      (maximum (energy (state w))))
                   (skills (state w)) (allies (state w) ++ [name])
                   (negative_influence (state w))
                   (Z.min (entity_presence (state w) + 1) 4)
                   (entity_trust (state w)) (rest_count (state w)))
                more (stdout w ++ said))).
Proof.
  split.
  - intros Hin. unfold encounter_cat_planet, print, print_wrapped, emit.
    erewrite bind_done by reflexivity. erewrite bind_done by reflexivity.
    erewrite bind_halt.
    2:{ rewrite input_eq. unfold set_stdout. cbn [state stdin stdout].
        rewrite Hin. reflexivity. }
    cbn [state stdin stdout set_stdout modify]. rewrite <- !app_assoc.
    eexists. reflexivity.
  - intros line more Hin name.
    unfold encounter_cat_planet, print, print_wrapped, emit.
    erewrite bind_done by reflexivity. erewrite bind_done by reflexivity.
    erewrite bind_done.
    2:{ rewrite input_eq. unfold set_stdout. cbn [state stdin stdout].
        rewrite Hin. reflexivity. }
    cbv zeta.
    replace (if negb (nonempty (strip line)) then "Ronronia" else strip line)
      with name by (subst name; destruct (nonempty (strip line)); reflexivity).
    erewrite bind_done by reflexivity.
    unfold update, look.
    erewrite bind_done by reflexivity.
    erewrite bind_done by reflexivity.
    erewrite bind_done by reflexivity.
    erewrite bind_done by reflexivity.
    unfold modify, set_stdout, set_stdin, set_state.
    cbn [state stdin stdout]. rewrite <- !app_assoc.
    eexists. reflexivity.
Qed.

Lemma encounter_cat_planet_spec_witness :
  (exists said,
     encounter_cat_planet (text := ascii_text) (mkWorld initial_state [] [])
       = Halt EOFError (mkWorld initial_state [] said)) /\
  (exists said,
     encounter_cat_planet (text := ascii_text) (mkWorld initial_state [" quit "; "1"] [])
       = Done tt (mkWorld (mkGameState (mkEnergyPool 12 12) [] ["quit"] 0 4 0 0)
                    ["1"] said)) /\
  (exists said,
     encounter_cat_planet (text := ascii_text) (mkWorld initial_state ["   "] [])
       = Done tt (mkWorld (mkGameState (mkEnergyPool 12 12) [] ["Ronronia"] 0 4 0 0)
                    [] said)).
Proof.
  split; [| split].
  - pose proof (encounter_cat_planet_spec (text := ascii_text)
                  (mkWorld initial_state [] [])) as (H & _).
    exact (H eq_refl).
  - pose proof (encounter_cat_planet_spec (text := ascii_text)
                  (mkWorld initial_state [" quit "; "1"] [])) as (_ & H).
    exact (H " quit " ["1"] eq_refl).
  - pose proof (encounter_cat_planet_spec (text := ascii_text)
                  (mkWorld initial_state ["   "] [])) as (_ & H).
    exact (H "   " [] eq_refl).
Defined.

(** ** Learning a skill: the other branches *)

Lemma catalog_get_cost key name description cost :
  catalog_get key skill_catalog = Some (name, description, cost) -> 0 < cost.
Proof.
  unfold skill_catalog. cbn [catalog_get].
  repeat case_bool_decide; intros [= <- <- <-]; lia.
Qed.

(** X7. [learn] on a skill that is not acquired yet, besides the paid
    case.  A key that is not in the catalog raises [KeyError] with nothing
    changed.  A skill that costs more than the current energy is not
    acquired: SwimmigStar rests instead (pool within bounds, positive
    maximum).  A skill that costs exactly the current energy is paid for
    and appended to [skills], and the run then ends on the energy check. *)
Theorem learn_edges (key : string) (acquired : gset string) (s : GameState) :
  key ∉ acquired ->
  (catalog_get key skill_catalog = None ->
     ensures (learn key acquired) s
       (fun _ _ => False) (fun e s' => e = KeyError key /\ s' = s)) /\
  (forall name description cost,
     catalog_get key skill_catalog = Some (name, description, cost) ->
     (0 <= current (energy s) < cost -> 0 < maximum (energy s) ->
        ensures (learn key acquired) s
          (fun a s' => a = acquired /\ s' = rested s) (fun _ _ => False)) /\
     (current (energy s) = cost ->
        ensures (learn key acquired) s
          (fun _ _ => False)
          (fun e s' =>
             e = SystemExit /\ s' = learnt name cost s /\
             current (energy s') = 0))).
Proof.
  intros Hnew.
  assert (Hunfold : forall A (a b : M A),
    (if bool_decide (key ∈ acquired) then a else b) = b).
  { intros. rewrite bool_decide_false by exact Hnew. reflexivity. }
  split.
  - intros Hcat. unfold learn. rewrite Hunfold, Hcat. walk. settle.
  - intros name description cost Hcat.
    pose proof (catalog_get_cost _ _ _ _ Hcat) as Hcost.
    split; intros; unfold learn; rewrite Hunfold, Hcat; walk; unfold learnt; settle.
Qed.

Lemma learn_edges_witness :
  let at_energy e := mkGameState (mkEnergyPool e 12) [] [] 0 3 0 0 in
  ensures (learn "lantern" ∅) (at_energy 2)
    (fun a s' => a = ∅ /\ s' = mkGameState (mkEnergyPool 6 12) [] [] 0 4 0 1)
    (fun _ _ => False) /\
  ensures (learn "lantern" ∅) (at_energy 3)
    (fun _ _ => False)
    (fun e s' =>
       e = SystemExit /\
       s' = mkGameState (mkEnergyPool 0 12) ["Lanternes de Guidage"] [] 0 3 0 0 /\
       current (energy s') = 0) /\
  ensures (learn "boussole" ∅) (at_energy 3)
    (fun _ _ => False) (fun e s' => e = KeyError "boussole" /\ s' = at_energy 3).
Proof.
  intros at_energy.
  assert (Hnew : forall key : string, key ∉ (∅ : gset string))
    by (intros key; apply not_elem_of_empty).
  split; [| split].
  - pose proof (learn_edges "lantern" ∅ (at_energy 2) (Hnew _)) as (_ & H).
    apply (H _ _ 3 eq_refl); cbn; lia.
  - pose proof (learn_edges "lantern" ∅ (at_energy 3) (Hnew _)) as (_ & H).
    apply (H _ _ 3 eq_refl). reflexivity.
  - pose proof (learn_edges "boussole" ∅ (at_energy 3) (Hnew _)) as (H & _).
    apply H. reflexivity.
Defined.

(** ** Whole encounters *)

Lemma ensures_for_each_print {A} (items : list A) (f : A -> string) s
    (Q : unit -> GameState -> Prop) E :
  Q tt s -> ensures (for_each items (fun x => print_wrapped (f x))) s Q E.
Proof.
  intros H. induction items as [| x more IH]; cbn [for_each].
  - apply ensures_ret, H.
  - apply ensures_bind, ensures_print_wrapped, IH.
Qed.

Lemma ensures_consult_wise_entity encounter s (Q : unit -> GameState -> Prop) E :
  (entity_presence s <= 0 -> Q tt s) ->
  (0 < entity_presence s -> Q tt (set_entity_trust (entity_trust s + 1) s)) ->
  ensures (consult_wise_entity encounter) s Q E.
Proof.
  intros Hmute Hspeaks. unfold consult_wise_entity. walk.
  - apply Hmute. lia.
  - apply ensures_for_each_print, Hspeaks. lia.
Qed.

(** Walk through a menu: the two ways the prompt itself stops the run,
    then one goal per handler. *)
Ltac walk_menu :=
  apply ensures_prompt_choice;
  [ | | repeat (apply List.Forall_cons; [cbn [snd] |]); [.. | apply List.Forall_nil] ].

(** X8. A beneficial encounter, with a non-negative reward.  The run can
    stop there only at the prompt (quit keyword, end of input, or the
    [ValueError] of [int]), with the game state untouched.  When
    [interact_with_planet] returns, whatever was chosen,
    [negative_influence] and [skills] are as before, [entity_trust] has
    risen by 1, or by 2 when the entity was consulted, and the ally list is
    as before or has the planet's name appended. *)
Theorem beneficial_encounter_raises_trust {text : TextOps}
    (encounter : PlanetEncounter) (s : GameState) :
  is_beneficial encounter = true -> 0 <= reward encounter ->
  ensures (interact_with_planet encounter) s
    (fun _ s' =>
       negative_influence s' = negative_influence s /\
       skills s' = skills s /\
       (entity_trust s' = entity_trust s + 1 \/ entity_trust s' = entity_trust s + 2) /\
       (allies s' = allies s \/ allies s' = (allies s ++ [name encounter])%list))
    (fun e s' =>
       (e = SystemExit \/ e = ValueError "invalid literal for int()") /\ s' = s).
Proof.
  intros Hgood Hreward.
  unfold interact_with_planet, planet_menu, adjust_trust. walk.
  walk_menu; [auto | intros _; auto | ..];
    unfold approach, keep_distance, ask_entity, take_rest; rewrite ?Hgood;
    walk; try apply ensures_consult_wise_entity; intros; walk;
    try (rewrite ?Hgood in *; cbn [andb negb] in *; discriminate); settle; auto.
Qed.

Lemma beneficial_encounter_raises_trust_witness :
  ensures (interact_with_planet (text := ascii_text)
             (mkPlanetEncounter "Compas Cristallin" "benefique" "Des anneaux." 3 3))
    initial_state
    (fun _ s' =>
       negative_influence s' = 0 /\ skills s' = [] /\
       (entity_trust s' = 1 \/ entity_trust s' = 2) /\
       (allies s' = [] \/ allies s' = ["Compas Cristallin"]))
    (fun e s' =>
       (e = SystemExit \/ e = ValueError "invalid literal for int()") /\
       s' = initial_state).
Proof.
  apply (beneficial_encounter_raises_trust (text := ascii_text)
           (mkPlanetEncounter "Compas Cristallin" "benefique" "Des anneaux." 3 3)
           initial_state); [reflexivity | cbn; lia].
Defined.

(** ** The skill-tree loop, for any invariant *)

Lemma expected_exit {text : TextOps} : expected SystemExit.
Proof. left. reflexivity. Qed.

Lemma expected_int {text : TextOps} :
  int_can_fail -> expected (ValueError "invalid literal for int()").
Proof. intros H. right. right. split; [reflexivity | exact H]. Qed.

Lemma skill_tree_loop_ensures {text : TextOps}
    (I : gset string -> GameState -> Prop) (R : GameState -> Prop) :
  (forall acquired s, I acquired s -> R s) ->
  (forall acquired s, I acquired s -> I acquired (rested s)) ->
  (forall key name description cost acquired s,
     catalog_get key skill_catalog = Some (name, description, cost) ->
     I acquired s ->
     ensures (learn key acquired) s (fun a s' => I a s')
       (fun e s' => expected e /\ R s')) ->
  forall budget acquired s, I acquired s ->
    ensures (skill_tree_loop budget acquired) s
      (fun _ s' => exists a, a <> ∅ /\ I a s')
      (fun e s' => (expected e \/ e = LoopBudget) /\ R s').
Proof.
  intros HR Hrest Hlearn.
  induction budget as [| budget IH]; intros acquired s Hs; cbn [skill_tree_loop].
  { apply ensures_raise. split; [right; reflexivity | eapply HR, Hs]. }
  assert (Hnext : forall a s', I a s' ->
    ensures (check_energy >> skill_tree_loop budget a) s'
      (fun _ s'' => exists a', a' <> ∅ /\ I a' s'')
      (fun e s'' => (expected e \/ e = LoopBudget) /\ R s'')).
  { intros a s' Hs'. walk.
    - split; [left; apply expected_exit | eapply HR, Hs'].
    - apply IH, Hs'. }
  assert (Hlearn' : forall key name description cost,
    catalog_get key skill_catalog = Some (name, description, cost) ->
    ensures (let* a := learn key acquired in ret (a, false)) s
      (fun r s' =>
         ensures (if r.2 then ret tt else check_energy >> skill_tree_loop budget r.1) s'
           (fun _ s'' => exists a', a' <> ∅ /\ I a' s'')
           (fun e s'' => (expected e \/ e = LoopBudget) /\ R s''))
      (fun e s'' => (expected e \/ e = LoopBudget) /\ R s'')).
  { intros key name description cost Hcat. apply ensures_bind.
    eapply ensures_weaken; [eapply Hlearn; [exact Hcat | exact Hs] | |].
    - intros a s' Hs'. apply ensures_ret. cbn [fst snd]. apply Hnext, Hs'.
    - intros e s' [He Hs']. split; [left; exact He | exact Hs']. }
  apply ensures_bind, ensures_prompt_choice.
  - split; [left; apply expected_exit | eapply HR, Hs].
  - intros Hfail. split; [left; apply expected_int, Hfail | eapply HR, Hs].
  - unfold skill_options, skill_catalog. cbn [map].
    assert (Hrest' :
      ensures (rest None >> ret (acquired, false)) s
        (fun r s' =>
           ensures (if r.2 then ret tt else check_energy >> skill_tree_loop budget r.1) s'
             (fun _ s'' => exists a', a' <> ∅ /\ I a' s'')
             (fun e s'' => (expected e \/ e = LoopBudget) /\ R s''))
        (fun e s'' => (expected e \/ e = LoopBudget) /\ R s'')).
    { apply ensures_bind, ensures_rest, ensures_ret. cbn [fst snd].
      apply Hnext, Hrest, Hs. }
    case_bool_decide as Hany; cbn [app];
      repeat (apply List.Forall_cons; [cbn [snd] |]); try apply List.Forall_nil;
      try exact Hrest'; try (eapply Hlearn'; reflexivity).
    unfold continue_route. walk.
    exists acquired. split; assumption.
Qed.

(** From the loop to [run_skill_tree], where the budget is enough. *)
Lemma run_skill_tree_ensures {text : TextOps}
    (I : gset string -> GameState -> Prop) (R : GameState -> Prop) :
  (forall acquired s, I acquired s -> R s) ->
  (forall acquired s, I acquired s -> I acquired (rested s)) ->
  (forall key name description cost acquired s,
     catalog_get key skill_catalog = Some (name, description, cost) ->
     I acquired s ->
     ensures (learn key acquired) s (fun a s' => I a s')
       (fun e s' => expected e /\ R s')) ->
  forall s, I ∅ s ->
    ensures run_skill_tree s
      (fun _ s' => exists a, a <> ∅ /\ I a s')
      (fun e s' => expected e /\ R s').
Proof.
  intros HR Hrest Hlearn s Hs lines out.
  assert (H : ensures run_skill_tree s
    (fun _ s' => exists a, a <> ∅ /\ I a s')
    (fun e s' => (expected e \/ e = LoopBudget) /\ R s')).
  { unfold run_skill_tree. walk.
    intros lines' out'. cbn [stdin].
    pose proof (skill_tree_loop_ensures I R HR Hrest Hlearn
                  (S (length lines')) ∅ s Hs lines' out') as Hloop.
    destruct (skill_tree_loop _ _ _) as [[] w' | e w'];
      [apply ensures_print_wrapped |]; exact Hloop. }
  specialize (H lines out).
  pose proof (run_skill_tree_within_budget (mkWorld s lines out)) as Hbudget.
  destruct (run_skill_tree _) as [a w' | e w']; [| cbn in Hbudget].
  - exact H.
  - destruct H as [[He | ->] Hw']; [split; assumption | congruence].
Qed.

(** ** What the skill tree leaves *)

Lemma skill_name_inj k1 k2 x :
  skill_name k1 = Some x -> skill_name k2 = Some x -> k1 = k2.
Proof.
  unfold skill_name, skill_catalog. cbn [catalog_get].
  repeat case_bool_decide; intros [= <-] [=]; congruence.
Qed.

Lemma skill_name_known key x : skill_name key = Some x -> x ∈ skill_names.
Proof.
  unfold skill_name, skill_names, skill_catalog. cbn [catalog_get map].
  repeat case_bool_decide; intros [= <-]; set_solver.
Qed.

Lemma skill_name_of_entry key name description cost :
  catalog_get key skill_catalog = Some (name, description, cost) ->
  skill_name key = Some name.
Proof. unfold skill_name. intros ->. reflexivity. Qed.

Lemma learn_keeps_learnt_so_far {text : TextOps} before key name description cost
    acquired s :
  catalog_get key skill_catalog = Some (name, description, cost) ->
  learnt_so_far before acquired s ->
  ensures (learn key acquired) s (fun a s' => learnt_so_far before a s')
    (fun e s' => expected e /\ True).
Proof.
  intros Hcat (l & Hskills & Hnodup & Hfrom & Hto).
  pose proof (catalog_get_cost _ _ _ _ Hcat) as Hcost.
  pose proof (skill_name_of_entry _ _ _ _ Hcat) as Hname.
  unfold learn. walk_step.
  { walk. exists l. split; [exact Hskills | split; [exact Hnodup | split; assumption]]. }
  apply bool_decide_eq_false in Heqb. rewrite Hcat. walk;
    try (split; [apply expected_exit | exact I]); try (exfalso; lia).
  - exists (l ++ [name])%list. state_facts.
    split; [rewrite Hskills, app_assoc; reflexivity |].
    split; [| split].
    + apply NoDup_app. split; [exact Hnodup | split; [| apply NoDup_singleton]].
      intros x Hx Hx'. apply list_elem_of_singleton in Hx'. subst x.
      destruct (Hfrom _ Hx) as (key' & Hkey' & Hname').
      rewrite (skill_name_inj _ _ _ Hname Hname') in Heqb. contradiction.
    + intros x Hx. apply elem_of_app in Hx as [Hx | Hx].
      * destruct (Hfrom _ Hx) as (key' & Hkey' & Hname').
        exists key'. split; [set_solver | exact Hname'].
      * apply list_elem_of_singleton in Hx. subst x.
        exists key. split; [set_solver | exact Hname].
    + intros key' Hkey'. apply elem_of_union in Hkey' as [Hkey' | Hkey'].
      * destruct (Hto _ Hkey') as (x & Hx & Hin).
        exists x. split; [exact Hx | set_solver].
      * apply elem_of_singleton in Hkey'. subst key'.
        exists name. split; [exact Hname | set_solver].
  - exists l. state_facts. split; [exact Hskills | split; [exact Hnodup | split; assumption]].
Qed.

Lemma run_skill_tree_skills {text : TextOps} (s : GameState) :
  ensures run_skill_tree s
    (fun _ s' => exists l, skills s' = (skills s ++ l)%list /\ chosen_skills l)
    (fun e _ => expected e).
Proof.
  eapply ensures_weaken.
  - apply (run_skill_tree_ensures (learnt_so_far (skills s)) (fun _ => True)).
    + auto.
    + intros acquired s0 (l & H). exists l. exact H.
    + intros key name description cost acquired s0 Hcat Hs0.
      eapply learn_keeps_learnt_so_far; eassumption.
    + exists []. rewrite app_nil_r.
      split; [reflexivity | split; [apply NoDup_nil_2 | split]].
      * intros x Hx. inversion Hx.
      * intros key Hkey. set_solver.
  - intros _ s' (a & Ha & l & Hskills & Hnodup & Hfrom & Hto).
    exists l. split; [exact Hskills |].
    assert (Hnames : forall x, x ∈ l -> x ∈ skill_names).
    { intros x Hx. destruct (Hfrom _ Hx) as (key & _ & Hname).
      eapply skill_name_known, Hname. }
    split; [| split; [exact Hnodup | split; [exact Hnames |]]].
    + apply set_choose_L in Ha as [key Hkey].
      destruct (Hto _ Hkey) as (x & _ & Hx). intros ->. inversion Hx.
    + apply (submseteq_length l skill_names).
      apply NoDup_submseteq; assumption.
  - intros e s' [He _]. exact He.
Qed.

(** X9. When [run_skill_tree] returns, the skill list is the one it
    started with followed by the skills chosen: at least one and at most
    three names of the catalog, none twice.  It raises nothing but the
    expected exceptions; in particular no [KeyError] and no budget
    exhaustion. *)
Theorem run_skill_tree_chooses_skills {text : TextOps} (s : GameState) :
  ensures run_skill_tree s
    (fun _ s' => exists l, skills s' = (skills s ++ l)%list /\ chosen_skills l)
    (fun e _ => expected e).
Proof. apply run_skill_tree_skills. Qed.

Lemma remaining_cost_bounds acquired : 0 <= remaining_cost acquired <= 7.
Proof.
  unfold remaining_cost, skill_catalog. cbn [fold_right].
  repeat case_bool_decide; lia.
Qed.

Lemma acquired_after (k key : string) (acquired : gset string) :
  bool_decide (k ∈ acquired ∪ {[ key ]})
    = bool_decide (k ∈ acquired) || bool_decide (k = key).
Proof.
  apply eq_true_iff_eq.
  rewrite orb_true_iff, !bool_decide_eq_true. set_solver.
Qed.

Lemma catalog_get_cases key name description cost :
  catalog_get key skill_catalog = Some (name, description, cost) ->
  (key = "solidarite" /\ cost = 2) \/ (key = "lullaby" /\ cost = 2) \/
  (key = "lantern" /\ cost = 3).
Proof.
  unfold skill_catalog. cbn [catalog_get].
  repeat case_bool_decide; intros [= _ _ <-]; auto.
Qed.

Lemma remaining_cost_fresh key name description cost acquired :
  catalog_get key skill_catalog = Some (name, description, cost) ->
  key ∉ acquired ->
  remaining_cost (acquired ∪ {[ key ]}) = remaining_cost acquired - cost.
Proof.
  intros Hentry Hnew. apply (bool_decide_eq_false_2 _) in Hnew.
  unfold remaining_cost, skill_catalog. cbn [fold_right].
  rewrite !acquired_after.
  destruct (catalog_get_cases _ _ _ _ Hentry) as [[-> ->] | [[-> ->] | [-> ->]]];
    rewrite Hnew; cbn [orb];
    repeat (destruct (bool_decide (_ ∈ acquired))); reflexivity.
Qed.

Lemma learn_keeps_reserve {text : TextOps} key name description cost acquired s :
  catalog_get key skill_catalog = Some (name, description, cost) ->
  3 + remaining_cost acquired <= current (energy s) /\ 10 <= maximum (energy s) ->
  ensures (learn key acquired) s
    (fun a s' =>
       3 + remaining_cost a <= current (energy s') /\ 10 <= maximum (energy s'))
    (fun e s' => expected e /\ 3 <= current (energy s')).
Proof.
  intros Hcat [Hreserve Htop].
  pose proof (catalog_get_cost _ _ _ _ Hcat) as Hcost.
  pose proof (remaining_cost_bounds acquired) as Hrem.
  unfold learn. walk_step.
  { walk. split; assumption. }
  apply bool_decide_eq_false in Heqb. rewrite Hcat.
  pose proof (remaining_cost_fresh _ _ _ _ _ Hcat Heqb) as Hfresh.
  pose proof (remaining_cost_bounds (acquired ∪ {[ key ]})) as Hrem'.
  walk; state_facts; try (exfalso; lia).
  split; lia.
Qed.

(** X10. Entering the skill tree with at least 10 energy in a pool of
    maximum at least 10, as [main] does: the energy never falls below 3,
    since the three skills cost 7 together and each is paid once.  So
    there [run_skill_tree] never stops the run for lack of energy, and the
    branch of [learn] that rests for want of energy is not taken. *)
Theorem run_skill_tree_keeps_a_reserve {text : TextOps} (s : GameState) :
  10 <= current (energy s) -> 10 <= maximum (energy s) ->
  ensures run_skill_tree s
    (fun _ s' => 3 <= current (energy s'))
    (fun e s' => expected e /\ 3 <= current (energy s')).
Proof.
  intros Hstart Htop.
  pose proof (remaining_cost_bounds ∅) as Hall.
  eapply ensures_weaken.
  - apply (run_skill_tree_ensures
             (fun acquired s' =>
                3 + remaining_cost acquired <= current (energy s') /\
                10 <= maximum (energy s'))
             (fun s' => 3 <= current (energy s'))).
    + intros acquired s0 [H _]. pose proof (remaining_cost_bounds acquired). lia.
    + intros acquired s0 [H Hmax]. pose proof (remaining_cost_bounds acquired).
      state_facts. split; lia.
    + intros key name description cost acquired s0 Hcat Hs0.
      eapply learn_keeps_reserve; eassumption.
    + split; lia.
  - intros _ s' (a & _ & H & _). pose proof (remaining_cost_bounds a). lia.
  - auto.
Qed.

Lemma run_skill_tree_keeps_a_reserve_witness :
  ensures (run_skill_tree (text := ascii_text)) initial_state
    (fun _ s' => 3 <= current (energy s'))
    (fun e s' => expected (text := ascii_text) e /\ 3 <= current (energy s')).
Proof.
  apply (run_skill_tree_keeps_a_reserve (text := ascii_text) initial_state);
    cbn; lia.
Defined.

(** ** Bounds kept along a run *)

Lemma ensures_both {A} (m : M A) s (Q1 Q2 : A -> GameState -> Prop)
    (E1 E2 : Stop -> GameState -> Prop) :
  ensures m s Q1 E1 -> ensures m s Q2 E2 ->
  ensures m s (fun a s' => Q1 a s' /\ Q2 a s') (fun e s' => E1 e s' /\ E2 e s').
Proof.
  intros H1 H2 lines out. specialize (H1 lines out). specialize (H2 lines out).
  destruct (m _); split; assumption.
Qed.

(** Close goals about [within] and [expected]. *)
Ltac within_facts :=
  unfold within in *; state_facts;
  repeat match goal with H : _ /\ _ |- _ => destruct H end;
  repeat match goal with
         | |- _ /\ _ => split
         | |- expected SystemExit => apply expected_exit
         | |- expected EOFError => right; left; reflexivity
         | |- expected (ValueError _) => apply expected_int; assumption
         end;
  try assumption; try lia.

Lemma learn_within {text : TextOps} top n t k key name description cost acquired s :
  catalog_get key skill_catalog = Some (name, description, cost) ->
  n <= 4 -> within top n t k (fun _ => True) s ->
  ensures (learn key acquired) s (fun _ => within top n t k (fun _ => True))
    (fun e s' => expected e /\ within top n t k (fun _ => True) s').
Proof.
  intros Hcat Hn Hs.
  pose proof (catalog_get_cost _ _ _ _ Hcat) as Hcost.
  unfold learn. walk_step; [walk; within_facts |].
  rewrite Hcat. walk; within_facts.
Qed.

Lemma run_skill_tree_within {text : TextOps} top n t k s :
  n <= 4 -> within top n t k (fun _ => True) s ->
  ensures run_skill_tree s (fun _ => within top n t k (fun _ => True))
    (fun e s' => expected e /\ within top n t k (fun _ => True) s').
Proof.
  intros Hn Hs. eapply ensures_weaken.
  - apply (run_skill_tree_ensures (fun _ => within top n t k (fun _ => True))
             (within top n t k (fun _ => True))).
    + auto.
    + intros _ s0 Hs0. within_facts.
    + intros key name description cost acquired s0 Hcat Hs0.
      eapply learn_within; eassumption.
    + exact Hs.
  - intros _ s' (_ & _ & H). exact H.
  - auto.
Qed.

Lemma encounter_cat_planet_within {text : TextOps} top n t k known s :
  within top n t k known s ->
  ensures encounter_cat_planet s
    (fun _ => within top (Z.min (n + 1) 4) t k known)
    (fun e s' => expected e /\ within top n t k known s').
Proof. intros Hs. unfold encounter_cat_planet. walk; within_facts. Qed.

Lemma beneficial_encounter_within {text : TextOps} top n t k known encounter s :
  is_beneficial encounter = true -> 0 <= reward encounter ->
  n <= 4 -> within top n t k known s ->
  ensures (interact_with_planet encounter) s
    (fun _ => within top n (t + 1) k known)
    (fun e s' => expected e /\ within top n t k known s').
Proof.
  intros Hgood Hreward Hn Hs.
  unfold interact_with_planet, planet_menu, adjust_trust. walk.
  walk_menu; [within_facts | intros; within_facts | ..];
    unfold approach, keep_distance, ask_entity, take_rest; rewrite ?Hgood;
    walk; try apply ensures_consult_wise_entity; intros; walk;
    try (rewrite ?Hgood in *; cbn [andb negb] in *; discriminate);
    within_facts.
Qed.

Lemma draining_encounter_within {text : TextOps} top n t k known encounter s :
  is_beneficial encounter = false -> 0 <= penalty encounter ->
  n <= 4 -> -3 <= t -> 0 <= k -> within top n t k known s ->
  ensures (interact_with_planet encounter) s
    (fun _ => within top (n - 1) (Z.max (t - 1) (-3)) (k + 1) known)
    (fun e s' =>
       expected e /\ within top (n - 1) (Z.max (t - 1) (-3)) (k + 1) known s').
Proof.
  intros Hbad Hpenalty Hn Ht Hk Hs.
  unfold interact_with_planet, planet_menu, adjust_trust. walk.
  walk_menu; [within_facts | intros; within_facts | ..];
    unfold approach, keep_distance, ask_entity, take_rest; rewrite ?Hbad;
    walk; try apply ensures_consult_wise_entity; intros; walk;
    try (rewrite ?Hbad in *; cbn [andb negb] in *; discriminate);
    try solve [within_facts].
  walk_menu; [within_facts | intros; within_facts | ..];
    unfold resist_exhausting_planet, call_allies_against_planet;
    walk; try (rewrite ?Hbad in *; cbn [andb negb] in *; discriminate);
    within_facts.
Qed.

Lemma within_weaken top n n' t t' k k' (known known' : list string -> Prop) s :
  n' <= n -> t' <= t -> k <= k' -> (forall l, known l -> known' l) ->
  within top n t k known s -> within top n' t' k' known' s.
Proof.
  intros Hn Ht Hk Hknown (Htop & Hp & Htr & Hneg & Hsk).
  unfold within. repeat split; try lia. apply Hknown, Hsk.
Qed.

Lemma stage_effects_within {text : TextOps} top n t k known :
  n <= 4 -> 0 <= k ->
  Forall (fun stage =>
            forall s, within top n t k known s ->
              ensures (listening_effect stage) s (fun _ => within top n t k known)
                (fun e s' => expected e /\ within top n t k known s') /\
              ensures (impulse_effect stage) s (fun _ => within top n t k known)
                (fun e s' => expected e /\ within top n t k known s') /\
              ensures (help_effect stage) s (fun _ => within top n t k known)
                (fun e s' => expected e /\ within top n t k known s'))
    stages.
Proof.
  intros Hn Hk. unfold stages.
  repeat (apply List.Forall_cons;
          [cbn [listening_effect impulse_effect help_effect]; intros s Hs;
           split; [| split] |]);
    try apply List.Forall_nil;
    unfold gain_clarity, gamble_energy, bolster_presence, soothe_influences,
      share_burden, weave_support, orchestrate_alliance;
    walk; within_facts.
Qed.

Lemma run_stage_within {text : TextOps} top n t k known stage s :
  n <= 4 ->
  (forall s0, within top n t k known s0 ->
     ensures (listening_effect stage) s0 (fun _ => within top n t k known)
       (fun e s' => expected e /\ within top n t k known s') /\
     ensures (impulse_effect stage) s0 (fun _ => within top n t k known)
       (fun e s' => expected e /\ within top n t k known s') /\
     ensures (help_effect stage) s0 (fun _ => within top n t k known)
       (fun e s' => expected e /\ within top n t k known s')) ->
  within top n t k known s ->
  ensures (run_stage stage) s
    (fun _ s' => within top n t k known s' /\ 0 < current (energy s'))
    (fun e s' => expected e /\ within top n t k known s').
Proof.
  intros Hn Heffects Hs.
  destruct (Heffects s Hs) as (Hlisten & Himpulse & Hhelp).
  assert (Hafter : forall s0, within top n t k known s0 ->
    ensures check_energy s0
      (fun _ s' => within top n t k known s' /\ 0 < current (energy s'))
      (fun e s' => expected e /\ within top n t k known s')).
  { intros s0 Hs0. walk; within_facts. }
  assert (Hthen : forall m : M unit,
    ensures m s (fun _ => within top n t k known)
      (fun e s' => expected e /\ within top n t k known s') ->
    ensures m s
      (fun _ s' =>
         ensures check_energy s'
           (fun _ s'' => within top n t k known s'' /\ 0 < current (energy s''))
           (fun e s'' => expected e /\ within top n t k known s''))
      (fun e s' => expected e /\ within top n t k known s')).
  { intros m Hm. eapply ensures_weaken; [exact Hm | | auto].
    intros [] s' Hs'. apply Hafter, Hs'. }
  unfold run_stage. walk.
  walk_menu; [within_facts | intros; within_facts | ..];
    unfold listen, follow_impulse, ask_help;
    walk; first [apply Hthen; assumption | within_facts].
Qed.

Lemma for_each_last {A} (items : list A) (body : A -> M unit)
    (I J : GameState -> Prop) E s :
  items <> [] ->
  (forall x s', x ∈ items -> I s' ->
     ensures (body x) s' (fun _ s'' => I s'' /\ J s'') E) ->
  I s -> ensures (for_each items body) s (fun _ s' => I s' /\ J s') E.
Proof.
  revert s. induction items as [| x more IH]; intros s Hne Hbody Hs; [congruence |].
  cbn [for_each]. apply ensures_bind.
  eapply ensures_weaken; [apply Hbody; [left | exact Hs] | | auto].
  intros [] s' [Hs' Hj]. destruct more as [| y more'].
  - apply ensures_ret. split; assumption.
  - apply IH; [discriminate | | exact Hs'].
    intros z s'' Hz. apply Hbody. right. exact Hz.
Qed.

Lemma reincarnation_journey_within {text : TextOps} top n t k known s :
  n <= 4 -> 0 <= k -> within top n t k known s ->
  ensures reincarnation_journey s
    (fun _ s' => within top n t k known s' /\ 0 < current (energy s'))
    (fun e s' => expected e /\ within top n t k known s').
Proof.
  intros Hn Hk Hs. unfold reincarnation_journey. walk.
  eapply ensures_weaken.
  - apply (for_each_last stages run_stage (within top n t k known)
             (fun s' => 0 < current (energy s'))).
    + discriminate.
    + intros stage s' Hin Hs'. apply run_stage_within; [exact Hn | | exact Hs'].
      exact (proj1 (Forall_forall _ _) (stage_effects_within top n t k known Hn Hk)
               stage Hin).
    + exact Hs.
  - intros [] s' [Hs' Hpos]. unfold conclude_journey. walk; split; assumption.
  - auto.
Qed.

Lemma ensures_seq {A B} (m : M A) (k : M B) s (P : GameState -> Prop) Q E :
  ensures m s (fun _ => P) E -> (forall s', P s' -> ensures k s' Q E) ->
  ensures (m >> k) s Q E.
Proof.
  intros Hm Hk. apply ensures_bind.
  eapply ensures_weaken; [exact Hm | | auto]. intros a s' Hs'. apply Hk, Hs'.
Qed.

Lemma ensures_then_check_energy {text : TextOps} (m : M unit) s
    (P R : GameState -> Prop) :
  (forall s', P s' -> R s') ->
  ensures m s (fun _ => P) (fun e s' => expected e /\ R s') ->
  ensures (m >> check_energy) s (fun _ => P) (fun e s' => expected e /\ R s').
Proof.
  intros HPR Hm. eapply ensures_seq; [exact Hm |].
  intros s' Hs'. walk; [split; [apply expected_exit | apply HPR, Hs'] | exact Hs'].
Qed.

Lemma travel_among_planets_within {text : TextOps} top n t k known s :
  n <= 4 -> -3 <= t -> 0 <= k -> within top n t k known s ->
  ensures travel_among_planets s
    (fun _ => within top (n - 2) t (k + 2) known)
    (fun e s' => expected e /\ within top (n - 2) t (k + 2) known s').
Proof.
  intros Hn Ht Hk Hs.
  set (R := within top (n - 2) t (k + 2) known).
  assert (Hgood : forall encounter n0 t0 k0 s0,
    is_beneficial encounter = true -> 0 <= reward encounter ->
    n - 2 <= n0 <= 4 -> t <= t0 -> k0 <= k + 2 ->
    within top n0 t0 k0 known s0 ->
    ensures (interact_with_planet encounter >> check_energy) s0
      (fun _ => within top n0 (t0 + 1) k0 known)
      (fun e s' => expected e /\ R s')).
  { intros encounter n0 t0 k0 s0 Hb Hr Hn0 Ht0 Hk0 Hs0.
    apply ensures_then_check_energy.
    - intros s'. apply within_weaken; auto; lia.
    - eapply ensures_weaken;
        [apply (beneficial_encounter_within top n0 t0 k0 known encounter s0
                  Hb Hr ltac:(lia) Hs0) | auto |].
      intros e s' [He Hs']. split; [exact He |].
      revert Hs'. apply within_weaken; auto; lia. }
  assert (Hbad : forall encounter n0 t0 k0 s0,
    is_beneficial encounter = false -> 0 <= penalty encounter ->
    n - 1 <= n0 <= 4 -> t + 1 <= t0 -> 0 <= k0 <= k + 1 ->
    within top n0 t0 k0 known s0 ->
    ensures (interact_with_planet encounter >> check_energy) s0
      (fun _ => within top (n0 - 1) (Z.max (t0 - 1) (-3)) (k0 + 1) known)
      (fun e s' => expected e /\ R s')).
  { intros encounter n0 t0 k0 s0 Hb Hp Hn0 Ht0 Hk0 Hs0.
    assert (Hweak : forall s',
      within top (n0 - 1) (Z.max (t0 - 1) (-3)) (k0 + 1) known s' -> R s').
    { intros s'. apply within_weaken; auto; lia. }
    apply ensures_then_check_energy; [exact Hweak |].
    eapply ensures_weaken;
      [apply (draining_encounter_within top n0 t0 k0 known encounter s0
                Hb Hp ltac:(lia) ltac:(lia) ltac:(lia) Hs0) | auto |].
    intros e s' [He Hs']. split; [exact He | apply Hweak, Hs']. }
  unfold travel_among_planets, encounters. cbn [for_each].
  eapply ensures_seq; [| intros s' Hs'; walk; exact Hs'].
  eapply ensures_seq.
  { apply (Hgood _ n t k); [reflexivity | cbn; lia | lia | lia | lia | exact Hs]. }
  intros s1 Hs1. eapply ensures_seq.
  { apply (Hbad _ n (t + 1) k);
      [reflexivity | cbn; lia | lia | lia | lia | exact Hs1]. }
  intros s2 Hs2. eapply ensures_seq.
  { apply (Hgood _ (n - 1) (Z.max (t + 1 - 1) (-3)) (k + 1));
      [reflexivity | cbn; lia | lia | lia | lia | exact Hs2]. }
  intros s3 Hs3. eapply ensures_seq.
  { apply (Hbad _ (n - 1) (Z.max (t + 1 - 1) (-3) + 1) (k + 1));
      [reflexivity | cbn; lia | lia | lia | lia | exact Hs3]. }
  intros s4 Hs4. apply ensures_ret.
  revert Hs4. apply within_weaken; auto; lia.
Qed.

Lemma introduce_story_keeps (P : GameState -> Prop) E s :
  P s -> ensures introduce_story s (fun _ => P) E.
Proof. intros Hs. unfold introduce_story. walk. exact Hs. Qed.

(** The whole run from the initial state. *)
Lemma play_outcome {text : TextOps} :
  ensures play initial_state
    (fun _ s' => within 12 2 0 2 chosen_skills s' /\ 0 < current (energy s'))
    (fun e s' => expected e /\ within 12 2 0 2 (fun _ => True) s').
Proof.
  assert (Hweak : forall n t k known s,
    2 <= n -> 0 <= t -> k <= 2 ->
    within 12 n t k known s -> within 12 2 0 2 (fun _ => True) s).
  { intros n t k known s Hn Ht Hk. apply within_weaken; auto. }
  assert (Hstop : forall A (m : M A) s n t k known (Q : A -> GameState -> Prop),
    2 <= n -> 0 <= t -> k <= 2 ->
    ensures m s Q (fun e s' => expected e /\ within 12 n t k known s') ->
    ensures m s Q (fun e s' => expected e /\ within 12 2 0 2 (fun _ => True) s')).
  { intros A m s n t k known Q Hn Ht Hk H.
    eapply ensures_weaken; [exact H | auto |].
    intros e s' [He Hs']. split; [exact He | eapply Hweak; eauto]. }
  assert (H0 : within 12 3 0 0 (fun l => l = []) initial_state).
  { unfold within. cbn. repeat split; lia. }
  unfold play.
  eapply ensures_seq; [apply introduce_story_keeps; exact H0 |].
  intros s0 Hs0. eapply ensures_seq with (P := within 12 3 0 0 chosen_skills).
  { assert (Hs0' : within 12 3 0 0 (fun _ => True) s0).
    { revert Hs0. apply within_weaken; auto; lia. }
    pose proof (ensures_both _ _ _ _ _ _
                  (run_skill_tree_within 12 3 0 0 s0 ltac:(lia) Hs0')
                  (run_skill_tree_skills s0)) as Hboth.
    eapply ensures_weaken; [exact Hboth | |].
    - intros [] s' [(Htop & Hp & Ht & Hk & _) (l & Hskills & Hl)].
      destruct Hs0 as (_ & _ & _ & _ & Hnone). rewrite Hnone in Hskills.
      unfold within. rewrite Hskills. cbn [app]. auto.
    - intros e s' [[He Hs'] _]. split; [exact He | eapply Hweak; eauto; lia]. }
  intros s1 Hs1.
  eapply ensures_seq with (P := within 12 4 0 0 chosen_skills).
  { eapply Hstop with (n := 3) (t := 0) (k := 0); try lia.
    apply (encounter_cat_planet_within 12 3 0 0 chosen_skills s1 Hs1). }
  intros s2 Hs2.
  eapply ensures_seq with (P := within 12 2 0 2 chosen_skills).
  { eapply Hstop with (n := 2) (t := 0) (k := 2); try lia.
    apply (travel_among_planets_within 12 4 0 0 chosen_skills s2); try lia.
    exact Hs2. }
  intros s3 Hs3.
  eapply Hstop with (n := 2) (t := 0) (k := 2); try lia.
  apply reincarnation_journey_within; try lia. exact Hs3.
Qed.

(** ** Every run of [main] *)


(** X12. The only exceptions that escape [main]: [SystemExit], [EOFError],
    and the [ValueError] of [int], the last one only if [int] rejects some
    string that [isdigit] accepts.  No [KeyError], no [IndexError], and
    neither [ValueError] of the energy pool: no negative amount is ever
    spent or restored. *)
Theorem main_raises_only {text : TextOps} (lines : list string) (e : Stop) :
  raised (main lines) = Some e ->
  e = SystemExit \/ e = EOFError \/
  (e = ValueError "invalid literal for int()" /\
   exists raw, isdigit raw = true /\ int raw = None).
Proof.
  pose proof (play_outcome lines []) as H. unfold main.
  destruct (play _) as [[] w | e' w]; cbn [raised]; intros [= <-].
  exact (proj1 H).
Qed.

Lemma main_raises_only_witness :
  raised (main (text := ascii_text) ["1"; "4"]) = Some EOFError /\
  (EOFError = SystemExit \/ EOFError = EOFError \/
   (EOFError = ValueError "invalid literal for int()" /\
    exists raw, isdigit (TextOps := ascii_text) raw = true /\
                int (TextOps := ascii_text) raw = None)).
Proof.
  assert (H : raised (main (text := ascii_text) ["1"; "4"]) = Some EOFError)
    by (vm_compute; reflexivity).
  split; [exact H |].
  exact (main_raises_only (text := ascii_text) ["1"; "4"] EOFError H).
Defined.

(** X13. A run of [main] that returns (the journey was completed) ends
    with energy left, between 1 and 12, and with between one and three
    skills of the catalog, none twice. *)
Theorem main_completed {text : TextOps} (lines : list string) (w : World) :
  main lines = Done tt w ->
  0 < current (energy (state w)) <= 12 /\ chosen_skills (skills (state w)).
Proof.
  intros Hdone.
  pose proof (play_outcome lines []) as H.
  pose proof (sound_preserves _ sound_play (mkWorld initial_state lines [])) as Hinv.
  unfold main in Hdone. rewrite Hdone in H, Hinv. cbn [final state] in Hinv.
  destruct H as [(Htop & _ & _ & _ & Hskills) Hpos].
  destruct Hinv as [[_ Hle] _].
  { unfold invariant, pool_ok. cbn. lia. }
  split; [lia | exact Hskills].
Qed.

Lemma main_completed_witness :
  let lines := ["1"; "1"; " 4"; ""; "1"; "3"; "2"; "1"; "1"; "2"; "3"; "3"; "2"; "3"] in
  let w := final (main (text := ascii_text) lines) in
  0 < current (energy (state w)) <= 12 /\ chosen_skills (skills (state w)).
Proof.
  intros lines w.
  apply (main_completed (text := ascii_text) lines w).
  vm_compute. reflexivity.
Defined.

(** X14. A draining encounter, with a non-negative penalty, entered with
    [entity_presence <= 4], [entity_trust >= -3] and
    [negative_influence >= 0].  Whatever is chosen, and whether
    [interact_with_planet] returns or the run stops there:
    [entity_presence] has dropped by at most 1, [negative_influence] has
    risen by at most 1, [entity_trust] has dropped by at most 1 and is
    still at least -3, and the pool's maximum is unchanged. *)
Theorem draining_encounter_costs_at_most_one {text : TextOps}
    (encounter : PlanetEncounter) (s : GameState) :
  is_beneficial encounter = false -> 0 <= penalty encounter ->
  entity_presence s <= 4 -> -3 <= entity_trust s -> 0 <= negative_influence s ->
  let bounded s' :=
    maximum (energy s') = maximum (energy s) /\
    entity_presence s - 1 <= entity_presence s' /\
    Z.max (entity_trust s - 1) (-3) <= entity_trust s' /\
    negative_influence s' <= negative_influence s + 1 in
  ensures (interact_with_planet encounter) s
    (fun _ s' => bounded s') (fun e s' => expected e /\ bounded s').
Proof.
  intros Hbad Hpenalty Hp Ht Hk bounded.
  assert (Hs : within (maximum (energy s)) (entity_presence s) (entity_trust s)
                 (negative_influence s) (fun _ => True) s).
  { unfold within. repeat split; lia. }
  eapply ensures_weaken;
    [apply (draining_encounter_within _ _ _ _ _ encounter s Hbad Hpenalty Hp Ht Hk Hs)
    | |].
  - intros _ s' (H1 & H2 & H3 & H4 & _). unfold bounded. auto.
  - intros e s' [He (H1 & H2 & H3 & H4 & _)]. unfold bounded. auto.
Qed.

Lemma draining_encounter_costs_at_most_one_witness :
  let storm := mkPlanetEncounter "Tourmente Obscure" "epuisante" "Un vortex." 3 3 in
  let s := mkGameState (mkEnergyPool 8 12) [] ["Minou"] 1 3 (-3) 0 in
  ensures (interact_with_planet (text := ascii_text) storm) s
    (fun _ s' =>
       maximum (energy s') = 12 /\ 2 <= entity_presence s' /\
       -3 <= entity_trust s' /\ negative_influence s' <= 2)
    (fun e s' =>
       expected (text := ascii_text) e /\
       maximum (energy s') = 12 /\ 2 <= entity_presence s' /\
       -3 <= entity_trust s' /\ negative_influence s' <= 2).
Proof.
  intros storm s.
  apply (draining_encounter_costs_at_most_one (text := ascii_text) storm s);
    [reflexivity | cbn; lia | cbn; lia | cbn; lia | cbn; lia].
Defined.

(** ** The pool again *)

(** X15. On a pool within its bounds and for a non-negative amount:
    [spend] answers what [can_spend] answers; a [spend] that fails leaves
    the pool depleted; and a [restore] of the same amount after a [spend]
    that succeeded gives the pool back as it was. *)
Theorem spend_restore_round_trip (p : EnergyPool) (amount : Z) :
  pool_ok p -> 0 <= amount ->
  (exists p', spend amount p = Done (can_spend amount p) p' /\
              (can_spend amount p = false -> is_depleted p' = true)) /\
  (can_spend amount p = true ->
     (let* paid := spend amount in restore amount) p = Done tt p).
Proof.
  intros [Hlow Hhigh] Hamount. unfold can_spend.
  destruct (Z.geb_spec (current p) amount) as [Hle | Hgt]; split.
  - rewrite spend_paid by assumption. eexists. split; [reflexivity | discriminate].
  - intros _. erewrite bind_done by (apply spend_paid; assumption).
    unfold restore. destruct (Z.ltb_spec amount 0); [lia |].
    unfold modify, set_current. cbn [current maximum].
    destruct p as [c m]. cbn in *. do 2 f_equal. lia.
  - rewrite spend_short by lia. eexists. split; reflexivity.
  - discriminate.
Qed.

Lemma spend_restore_round_trip_witness :
  (exists p', spend 20 (mkEnergyPool 7 12) = Done false p' /\ is_depleted p' = true) /\
  (let* paid := spend 5 in restore 5) (mkEnergyPool 7 12) = Done tt (mkEnergyPool 7 12).
Proof.
  assert (Hok : pool_ok (mkEnergyPool 7 12)) by (unfold pool_ok; cbn; lia).
  split.
  - destruct (spend_restore_round_trip (mkEnergyPool 7 12) 20 Hok ltac:(lia))
      as [(p' & Hspend & Hdepleted) _].
    exists p'. split; [exact Hspend | apply Hdepleted; reflexivity].
  - destruct (spend_restore_round_trip (mkEnergyPool 7 12) 5 Hok ltac:(lia))
      as [_ Hback].
    apply Hback. reflexivity.
Defined.
